(** * cookie-taster: the combination engine, the plugin dispatcher and the
      run coordinator, embedded from the Python sources.

    - [src/cookie_taster/core/template.py]      : [TemplateOption],
                                                  [TemplateInspector._extract_options]
    - [src/cookie_taster/core/combinations.py]  : [generate_combinations],
                                                  [estimate_combination_count]
    - [src/cookie_taster/plugins/models.py]     : [TasterStatus], [TasterResult], ...
    - [src/cookie_taster/plugins/manager.py]    : [PluginManager]
    - [src/cookie_taster/core/generator.py]     : [ProjectGenerator]
    - [src/cookie_taster/tui/screens/execution.py] : the per-configuration loop
    - [src/cookie_taster/tui/screens/options.py] : the selections of the options screen
    - [src/cookie_taster/tasters/example.py]    : [ExampleTaster]
*)

From stdpp Require Import gmap strings list fin_maps.

Local Open Scope string_scope.
Local Open Scope list_scope.
#[local] Set Warnings "-clear-no-such-hyp,-register-all".

(* ===================================================================== *)
(** * Python values, exceptions and dictionaries                          *)
(* ===================================================================== *)

(** Every exception the modelled code can raise.  The first four are the
    [ValueError]s of the repository, told apart by their message; the
    payload is the data the message is formatted from. *)
Inductive Exception : Type :=
  | UnknownOption (option_name : string)
      (* ValueError(f"Unknown option: {option_name}") *)
  | InvalidChoice (option_name : string) (invalid_values valid_choices : list string)
      (* ValueError(f"Invalid values for option '{option_name}': ...") *)
  | NoChoices (option_name : string)
      (* ValueError(f"Option '{name}' must have at least one choice") *)
  | DefaultNotInChoices (default_value option_name : string) (valid_choices : list string)
      (* ValueError(f"Default value '{default}' for option '{name}' is not in choices ...") *)
  | ZipLengthMismatch
      (* the ValueError of zip(..., strict=True) on lists of unequal length *)
  | Raised (what : string).
      (* any exception raised by a plugin's hook implementation *)

(** Computations that may raise. *)
Definition result (A : Type) : Type := Exception + A.

Definition raise {A} (e : Exception) : result A := inl e.

#[export] Instance result_ret : MRet result := λ A x, inr x.
#[export] Instance result_bind : MBind result :=
  λ A B f m, match m with inl e => inl e | inr x => f x end.
#[export] Instance result_fmap : FMap result :=
  λ A B f m, match m with inl e => inl e | inr x => inr (f x) end.

(** A value stored in a cookiecutter context: the engine writes strings;
    the base context (the parsed cookiecutter.json) may hold anything. *)
Inductive object : Type :=
  | Str (s : string)
  | Obj (repr : string).

(** A [dict[str, V]] whose iteration order matters: the entries in insertion
    order.  Python keeps keys unique; [dict_wf] states it. *)
Definition dict (V : Type) : Type := list (string * V).

Definition dict_wf {V} (d : dict V) : Prop := NoDup (d.*1).

(** [d[k]], with [None] for a missing key; [k in d] is [is_Some (dict_get d k)]. *)
Fixpoint dict_get {V} (d : dict V) (k : string) : option V :=
  match d with
  | [] => None
  | (k', v) :: d' => if decide (k' = k) then Some v else dict_get d' k
  end.

(** [zip(xs, ys, strict=True)], consumed by a [for] loop: the pairs, or the
    [ValueError] when one list runs out before the other. *)
Fixpoint zip_strict {A B} (xs : list A) (ys : list B) : result (list (A * B)) :=
  match xs, ys with
  | [], [] => mret []
  | x :: xs', y :: ys' => ps ← zip_strict xs' ys'; mret ((x, y) :: ps)
  | _, _ => raise ZipLengthMismatch
  end.

(** [itertools.product] applied to the unpacked [pools]: the documented evaluation
    [result = [[]]; for pool in pools: result = [x+[y] for x in result for y in pool]]. *)
Definition product {A} (pools : list (list A)) : list (list A) :=
  foldl (λ result pool, x ← result; y ← pool; [x ++ [y]]) [[]] pools.

(* ===================================================================== *)
(** * core/template.py                                                     *)
(* ===================================================================== *)

Record TemplateOption : Type := mkTemplateOption {
  name : string;
  choices : list string;
  default : string
}.

(** [TemplateOption.__post_init__]. *)
Definition post_init (self : TemplateOption) : result unit :=
  if decide (choices self = []) then raise (NoChoices (name self))
  else if decide (default self ∈ choices self) then mret ()
  else raise (DefaultNotInChoices (default self) (name self) (choices self)).

(** Calling the dataclass constructor: build the record, then validate it. *)
Definition new_TemplateOption (n : string) (cs : list string) (d : string)
  : result TemplateOption :=
  let self := mkTemplateOption n cs d in
  _ ← post_init self; mret self.

(** An option that a constructor call can have produced. *)
Definition constructed (o : TemplateOption) : Prop :=
  new_TemplateOption (name o) (choices o) (default o) = inr o.

(* ===================================================================== *)
(** * core/combinations.py                                                 *)
(* ===================================================================== *)

(** [{opt.name: opt for opt in options}]: a later option replaces an earlier
    one of the same name. *)
Definition build_option_map (options : list TemplateOption) : gmap string TemplateOption :=
  foldl (λ m opt, <[name opt := opt]> m) ∅ options.

(** The validation loop over [selections.items()] (lines 49-61): the first
    offending entry, in iteration order, raises. *)
Fixpoint validate_selections (option_map : gmap string TemplateOption)
    (items : dict (list string)) : result unit :=
  match items with
  | [] => mret ()
  | (option_name, selected_values) :: rest =>
      match option_map !! option_name with
      | None => raise (UnknownOption option_name)
      | Some option =>
          let invalid_values := filter (λ v, v ∉ choices option) selected_values in
          match invalid_values with
          | [] => validate_selections option_map rest
          | _ :: _ => raise (InvalidChoice option_name invalid_values (choices option))
          end
      end
  end.

(** [option.name in selections and len(selections[option.name]) > 0]. *)
Definition is_varying (selections : dict (list string)) (option : TemplateOption) : bool :=
  match dict_get selections (name option) with
  | None => false
  | Some values => bool_decide (0 < length values)
  end.

(** [option.name not in selections or len(selections[option.name]) == 0]. *)
Definition is_fixed (selections : dict (list string)) (option : TemplateOption) : bool :=
  match dict_get selections (name option) with
  | None => true
  | Some values => bool_decide (length values = 0)
  end.

(** The loop of lines 72-75, which appends to [varying_options] and
    [varying_values] side by side; the two lists are kept as one list of
    pairs here and projected below. *)
Fixpoint varying (selections : dict (list string)) (options : list TemplateOption)
  : list (string * list string) :=
  match options with
  | [] => []
  | option :: rest =>
      if is_varying selections option
      then (name option, from_option id [] (dict_get selections (name option)))
             :: varying selections rest
      else varying selections rest
  end.

Definition varying_options selections options : list string := (varying selections options).*1.
Definition varying_values selections options : list (list string) := (varying selections options).*2.

(** Lines 79-81: every option's default written over a copy of the base context. *)
Definition all_defaults (options : list TemplateOption) (base_context : gmap string object)
  : gmap string object :=
  foldl (λ ctx option, <[name option := Str (default option)]> ctx) base_context options.

(** Lines 91-92: the tuple's values written under the varying names. *)
Definition apply_pairs (pairs : list (string * string)) (ctx : gmap string object)
  : gmap string object :=
  foldl (λ ctx '(option_name, value), <[option_name := Str value]> ctx) ctx pairs.

(** Lines 95-97: defaults for the options that do not vary. *)
Definition add_fixed_defaults (selections : dict (list string))
    (options : list TemplateOption) (ctx : gmap string object) : gmap string object :=
  foldl (λ ctx option,
           if is_fixed selections option
           then <[name option := Str (default option)]> ctx else ctx) ctx options.

(** One iteration of the loop of lines 86-99. *)
Definition combo_context (options : list TemplateOption) (selections : dict (list string))
    (base_context : gmap string object) (value_tuple : list string)
  : result (gmap string object) :=
  pairs ← zip_strict (varying_options selections options) value_tuple;
  mret (add_fixed_defaults selections options (apply_pairs pairs base_context)).

Definition generate_combinations (options : list TemplateOption)
    (selections : dict (list string)) (base_context : option (gmap string object))
  : result (list (gmap string object)) :=
  let option_map := build_option_map options in
  _ ← validate_selections option_map selections;
  let base_context := from_option id ∅ base_context in
  match varying_options selections options with
  | [] => mret [all_defaults options base_context]
  | _ :: _ =>
      mapM (combo_context options selections base_context)
           (product (varying_values selections options))
  end.

Definition estimate_combination_count (options : list TemplateOption)
    (selections : dict (list string)) : nat :=
  let option_map := build_option_map options in
  foldl (λ count '(option_name, selected_values),
           if bool_decide (is_Some (option_map !! option_name))
              && bool_decide (0 < length selected_values)
           then count * length selected_values else count)
        1 selections.

(* ===================================================================== *)
(** * plugins/models.py                                                    *)
(* ===================================================================== *)

Inductive TasterStatus : Type := SUCCESS | FAILURE | SKIPPED | ERROR.

#[export] Instance TasterStatus_eq_dec : EqDecision TasterStatus.
Proof. solve_decision. Defined.

Module TemplateMetadata.
Record t : Type := mk {
  source : string;
  name : option string;
  version : option string
}.
End TemplateMetadata.

Record TasterContext : Type := mkTasterContext {
  tc_cookiecutter_context : gmap string object;
  tc_template_metadata : TemplateMetadata.t
}.

Record ProjectInfo : Type := mkProjectInfo {
  path : string;
  cookiecutter_context : gmap string object;
  template_metadata : TemplateMetadata.t
}.

(** The [taster_context] property. *)
Definition taster_context (self : ProjectInfo) : TasterContext :=
  mkTasterContext (cookiecutter_context self) (template_metadata self).

(** [duration_seconds] is a float in the source; no modelled code reads it,
    and it is carried here as a whole number of time units. *)
Record TasterResult : Type := mkTasterResult {
  taster_name : string;
  status : TasterStatus;
  message : string;
  logs : list string;
  duration_seconds : N
}.

Definition is_success (self : TasterResult) : bool := bool_decide (status self = SUCCESS).
Definition is_failure (self : TasterResult) : bool := bool_decide (status self = FAILURE).
Definition is_skipped (self : TasterResult) : bool := bool_decide (status self = SKIPPED).
Definition is_error (self : TasterResult) : bool := bool_decide (status self = ERROR).

(* ===================================================================== *)
(** * plugins/hookspecs.py and the pluggy hook call                        *)
(* ===================================================================== *)

(** A plugin: one implementation of each hook of hookspecs.py, returning
    values of the declared types ([str], [bool], [TasterResult]; pluggy would
    drop a [None]).  The outcome of [test_project] is its outcome on the
    project at hand; it may raise. *)
Record Plugin : Type := mkPlugin {
  get_taster_name : string;
  can_handle : TasterContext → bool;
  test_project : ProjectInfo → result TasterResult
}.

(** One call of a hook implementation; the plugin is named by its position
    in the order of registration, from 0. *)
Inductive HookCall : Type :=
  | Call_get_taster_name (plugin : nat)
  | Call_can_handle (plugin : nat)
  | Call_test_project (plugin : nat).

#[export] Instance HookCall_eq_dec : EqDecision HookCall.
Proof. solve_decision. Defined.

(** A computation that calls hook implementations: the calls made, in
    order, and the value returned or the exception raised. *)
Definition traced (A : Type) : Type := list HookCall * result A.

#[export] Instance traced_ret : MRet traced := λ A x, ([], inr x).
#[export] Instance traced_bind : MBind traced :=
  λ A B f m,
    match m with
    | (calls, inl e) => (calls, inl e)
    | (calls, inr x) => let '(calls', r) := f x in (calls ++ calls', r)
    end.

Definition lift {A} (r : result A) : traced A := ([], r).

(** [self.pm]: the registered plugins, in the order of registration. *)
Record PluginManager : Type := mkPluginManager {
  plugins : list Plugin
}.


Definition plugin_count (self : PluginManager) : nat := length (plugins self).

(** The implementations in the order pluggy calls them: pluggy (an external
    library) calls hook implementations in LIFO registered order, the plugin
    registered last first. *)
Definition call_order (self : PluginManager) : list (nat * Plugin) :=
  reverse (imap pair (plugins self)).

(** [self.pm.hook.<hook>(...)] for a hook without wrappers: each
    implementation is called in turn and the results are collected in call
    order; an exception raised by an implementation is not caught, the
    remaining implementations are not called. *)
Fixpoint call_impls {R} (hook : nat → HookCall) (impl : Plugin → result R)
    (impls : list (nat * Plugin)) : traced (list R) :=
  match impls with
  | [] => mret []
  | (i, plugin) :: rest =>
      r ← ([hook i], impl plugin);
      rs ← call_impls hook impl rest;
      mret (r :: rs)
  end.

Definition hook_call {R} (hook : nat → HookCall) (impl : Plugin → result R)
    (self : PluginManager) : traced (list R) :=
  call_impls hook impl (call_order self).

(* ===================================================================== *)
(** * plugins/manager.py                                                   *)
(* ===================================================================== *)

Definition get_taster_names (self : PluginManager) : traced (list string) :=
  results ← hook_call Call_get_taster_name (λ p, inr (get_taster_name p)) self;
  mret (filter (λ name, name ≠ EmptyString) results).

Definition get_applicable_tasters (self : PluginManager) (context : TasterContext)
  : traced (list string) :=
  names ← get_taster_names self;
  can_handle_results ← hook_call Call_can_handle (λ p, inr (can_handle p context)) self;
  pairs ← lift (zip_strict names can_handle_results);
  mret ((filter (λ p, p.2 = true) pairs).*1).

Definition run_tasters (self : PluginManager) (project_info : ProjectInfo)
    (taster_names : option (list string)) : traced (list TasterResult) :=
  taster_names ←
    match taster_names with
    | None => get_applicable_tasters self (taster_context project_info)
    | Some names => mret names
    end;
  all_names ← get_taster_names self;
  all_results ← hook_call Call_test_project (λ p, test_project p project_info) self;
  pairs ← lift (zip_strict all_names all_results);
  mret ((filter (λ p, p.1 ∈ taster_names) pairs).*2).

(** What a caller of [run_tasters] receives. *)
Definition outcome {A} (m : traced A) : result A := m.2.
Definition calls {A} (m : traced A) : list HookCall := m.1.

(* ===================================================================== *)
(** * core/generator.py and tui/screens/execution.py                       *)
(* ===================================================================== *)

Record GenerationResult : Type := mkGenerationResult {
  success : bool;
  project_path : option string;
  error : option string;
  context : option (gmap string object)
}.

Record ProjectGenerator : Type := mkProjectGenerator {
  template_source : string;
  output_dir : string;
  generator_metadata : TemplateMetadata.t
}.

(** One entry of [ExecutionScreen.results]. *)
Definition RunResult : Type := gmap string object * bool * list string.

Section Coordinator.
(** The file system the templating library writes to. *)
Variable World : Type.

(** [cookiecutter(template=, output_dir=, no_input=True, extra_context=)],
    the external templating library: the path of the generated project,
    or an exception with its message. *)
Variable cookiecutter :
  string → string → gmap string object → World → (string + string) * World.

Definition generate (self : ProjectGenerator) (ctx : gmap string object) (w : World)
  : GenerationResult * World :=
  match cookiecutter (template_source self) (output_dir self) ctx w with
  | (inr project_path, w') =>
      (mkGenerationResult true (Some project_path) None (Some ctx), w')
  | (inl e, w') =>
      (mkGenerationResult false None (Some e) (Some ctx), w')
  end.

Definition generate_with_info (self : ProjectGenerator) (ctx : gmap string object)
    (w : World) : option ProjectInfo * World :=
  let '(result, w') := generate self ctx w in
  match success result, project_path result with
  | true, Some p => (Some (mkProjectInfo p ctx (generator_metadata self)), w')
  | _, _ => (None, w')
  end.

(** The state of the loop of [_start_execution]. *)
Record RunState : Type := mkRunState {
  world : World;
  results : list RunResult;
  current_step : nat
}.

(** The body of the loop of [_start_execution], for one context.  An
    exception raised by [run_tasters] leaves the loop. *)
Definition execute_context (plugin_manager : PluginManager)
    (generator : ProjectGenerator) (st : RunState) (ctx : gmap string object)
  : result RunState :=
  let '(result, w1) := generate generator ctx (world st) in
  let step := current_step st + 1 in
  if negb (success result) || bool_decide (project_path result = None) then
    mret (mkRunState w1
            (results st ++
               [(ctx, false,
                 ["Generation failed: " +:+ from_option id "None" (error result)])])
            step)
  else
    let '(project_info, w2) := generate_with_info generator ctx w1 in
    match project_info with
    | Some project_info =>
        taster_results ← outcome (run_tasters plugin_manager project_info None);
        let ok := forallb (λ r, bool_decide (status r = SUCCESS)) taster_results in
        let messages := (λ r, taster_name r +:+ ": " +:+ message r) <$> taster_results in
        mret (mkRunState w2 (results st ++ [(ctx, ok, messages)]) (step + 1))
    | None =>
        mret (mkRunState w2
                (results st ++ [(ctx, false, ["Failed to create project info"])])
                (step + 1))
    end.

Fixpoint execute_all (plugin_manager : PluginManager) (generator : ProjectGenerator)
    (st : RunState) (combinations : list (gmap string object)) : result RunState :=
  match combinations with
  | [] => mret st
  | ctx :: rest =>
      st' ← execute_context plugin_manager generator st ctx;
      execute_all plugin_manager generator st' rest
  end.
End Coordinator.

Arguments generate {World}.
Arguments generate_with_info {World}.
Arguments execute_context {World}.
Arguments execute_all {World}.
Arguments mkRunState {World}.
Arguments world {World}.
Arguments results {World}.
Arguments current_step {World}.

(* ===================================================================== *)
(** * core/generator.py: generate_batch                                    *)
(* ===================================================================== *)

Section Batch.
Variable World : Type.
Variable cookiecutter :
  string → string → gmap string object → World → (string + string) * World.

(** The loop of [generate_batch]: one [generate] call per context, in
    order, each on the file system the previous call left. *)
Fixpoint generate_batch (self : ProjectGenerator)
    (contexts : list (gmap string object)) (w : World)
  : list GenerationResult * World :=
  match contexts with
  | [] => ([], w)
  | ctx :: rest =>
      let '(result, w1) := generate cookiecutter self ctx w in
      let '(results, w2) := generate_batch self rest w1 in
      (result :: results, w2)
  end.
End Batch.

Arguments generate_batch {World}.

(* ===================================================================== *)
(** * core/template.py: TemplateInspector._extract_options                 *)
(* ===================================================================== *)

(** A value of the parsed cookiecutter.json. *)
Inductive json : Type :=
  | JString (s : string)
  | JList (items : list json)
  | JOther (literal : string).
      (* a number, a boolean, null or an object *)

Section Inspector.
(** What the builtin [str] returns on a value that is not a string. *)
Variable str_of_other : json → string.

(** [str(value)]. *)
Definition str (value : json) : string :=
  match value with
  | JString s => s
  | _ => str_of_other value
  end.

(** The loop of [_extract_options] over [context.items()]. *)
Fixpoint _extract_options (context : dict json) : list TemplateOption :=
  match context with
  | [] => []
  | (key, value) :: rest =>
      match value with
      | JList (first :: others) =>
          let default := str first in
          let choices := str <$> first :: others in
          match new_TemplateOption key choices default with
          | inr option => option :: _extract_options rest
          | inl _ => _extract_options rest
          end
      | _ => _extract_options rest
      end
  end.
End Inspector.

(* ===================================================================== *)
(** * tui/screens/options.py                                               *)
(* ===================================================================== *)

(** [d[k] = v]: the value of an existing key is replaced in place, a new key
    goes to the end. *)
Fixpoint dict_set {V} (d : dict V) (k : string) (v : V) : dict V :=
  match d with
  | [] => [(k, v)]
  | (k', v') :: d' =>
      if decide (k' = k) then (k, v) :: d' else (k', v') :: dict_set d' k v
  end.

(** A checkbox of the screen: its label's plain text and whether it is
    checked. *)
Record Checkbox : Type := mkCheckbox {
  label_plain : string;
  value : bool
}.

(** An [OptionGroup] widget with the checkboxes it holds. *)
Record OptionGroup : Type := mkOptionGroup {
  group_option : TemplateOption;
  checkboxes : list Checkbox
}.

(** The inner loop of [_get_selections]: the labels of the checked boxes. *)
Definition selected_values_of (g : OptionGroup) : list string :=
  label_plain <$> filter (λ c, value c = true) (checkboxes g).

(** [_get_selections], over the groups in the order [query] yields them. *)
Definition _get_selections (groups : list OptionGroup) : dict (list string) :=
  foldl (λ selections g,
           match selected_values_of g with
           | [] => selections
           | _ :: _ => dict_set selections (name (group_option g)) (selected_values_of g)
           end)
        [] groups.

(** The loop shared by [handle_generate] and [_update_combination_count]:
    an option with nothing selected is given its default. *)
Definition use_defaults (options : list TemplateOption)
    (selections : dict (list string)) : dict (list string) :=
  foldl (λ selections o,
           if is_fixed selections o
           then dict_set selections (name o) [default o] else selections)
        selections options.

(** [handle_generate]: the selections the screen is dismissed with, or
    [None] when the handler returns without dismissing. *)
Definition handle_generate (options : list TemplateOption) (groups : list OptionGroup)
  : option (dict (list string)) :=
  match _get_selections groups with
  | [] => None
  | selections => Some (use_defaults options selections)
  end.

(** [_update_combination_count]: the count the screen displays. *)
Definition _update_combination_count (options : list TemplateOption)
    (groups : list OptionGroup) : nat :=
  estimate_combination_count options (use_defaults options (_get_selections groups)).

(* ===================================================================== *)
(** * tasters/example.py                                                   *)
(* ===================================================================== *)

Section ExampleTaster.
(** The file system and the formatting the taster relies on:
    [Path.exists], [path / filename], the files [path.rglob] yields, the
    [str] of a context and of an integer, and the seconds elapsed when the
    result is built. *)
Variable path_exists : string → bool.
Variable joinpath : string → string → string.
Variable rglob_files : string → list string.
Variable str_of_context : gmap string object → string.
Variable str_of_int : nat → string.
Variable elapsed : N.

Definition common_files : list string :=
  ["README.md"; "README.rst"; "README.txt"; "README"].

Definition example_get_taster_name : string := "example".

Definition example_can_handle (context : TasterContext) : bool := true.

Definition example_test_project (project_info : ProjectInfo) : TasterResult :=
  let logs := ["Testing project at: " +:+ path project_info;
               "Context: " +:+ str_of_context (cookiecutter_context project_info)] in
  if negb (path_exists (path project_info)) then
    mkTasterResult example_get_taster_name ERROR
                   "Project directory does not exist" logs elapsed
  else
    let logs := logs ++ ["Project directory exists: " +:+ path project_info] in
    let has_readme :=
      existsb (λ filename, path_exists (joinpath (path project_info) filename))
              common_files in
    let logs := logs ++ [if has_readme then "Found README file"
                         else "No README file found"] in
    let file_count := length (rglob_files (path project_info)) in
    let logs := logs ++ ["Total files in project: " +:+ str_of_int file_count] in
    let '(status, message) :=
      if bool_decide (file_count = 0) then (FAILURE, "Project has no files")
      else if has_readme then
        (SUCCESS, "Project structure looks good (" +:+ str_of_int file_count +:+ " files)")
      else
        (SUCCESS, "Project generated successfully (" +:+ str_of_int file_count
                    +:+ " files, but no README)") in
    mkTasterResult example_get_taster_name status message logs elapsed.

(** The [ExampleTaster] instance as a plugin. *)
Definition ExampleTaster : Plugin :=
  mkPlugin example_get_taster_name example_can_handle
           (λ project_info, inr (example_test_project project_info)).
End ExampleTaster.

(* ===================================================================== *)
(** * The notions of the specification                                     *)
(* ===================================================================== *)

(** An option varies when it is present in the selections with a non-empty
    list of values; otherwise it is fixed to its default. *)
Definition varies (selections : dict (list string)) (o : TemplateOption) : Prop :=
  ∃ values, dict_get selections (name o) = Some values ∧ values ≠ [].

(** A name that names a known option. *)
Definition known_option (options : list TemplateOption) (k : string) : Prop :=
  k ∈ name <$> options.

(** Every selected name names a known option and every selected value is one
    of that option's choices. *)
Definition valid_selections (options : list TemplateOption)
    (selections : dict (list string)) : Prop :=
  ∀ k values, (k, values) ∈ selections →
    ∃ o, o ∈ options ∧ name o = k ∧ ∀ v, v ∈ values → v ∈ choices o.

Definition distinct_names (options : list TemplateOption) : Prop :=
  NoDup (name <$> options).

(** The value lists of the varying options, in the order the options are
    declared, and the names they belong to. *)
Definition varying_lists (selections : dict (list string))
    (options : list TemplateOption) : list (list string) :=
  omap (λ o, match dict_get selections (name o) with
             | Some (v :: values) => Some (v :: values)
             | _ => None
             end) options.

Definition varying_names (selections : dict (list string))
    (options : list TemplateOption) : list string :=
  omap (λ o, match dict_get selections (name o) with
             | Some (_ :: _) => Some (name o)
             | _ => None
             end) options.

(** The cartesian product by nested iteration: an earlier list is an outer
    loop, the last list cycles fastest. *)
Fixpoint cartesian {A} (pools : list (list A)) : list (list A) :=
  match pools with
  | [] => [[]]
  | pool :: rest => y ← pool; t ← cartesian rest; [y :: t]
  end.

(** The mapping a sequence of (name, value) pairs denotes; a later pair wins. *)
Definition mapping (pairs : list (string * string)) : gmap string object :=
  list_to_map (reverse (prod_map id Str <$> pairs)).

(** Merging [later] over [earlier]: on a common key the later value wins. *)
Definition merge (earlier later : gmap string object) : gmap string object :=
  later ∪ earlier.

(** The assignments of a product tuple to the varying options. *)
Definition assignments (selections : dict (list string))
    (options : list TemplateOption) (value_tuple : list string) : gmap string object :=
  mapping (zip (varying_names selections options) value_tuple).

(** The defaults of the options of a list. *)
Definition defaults_of (options : list TemplateOption) : gmap string object :=
  mapping ((λ o, (name o, default o)) <$> options).

(** The defaults of the fixed options. *)
Definition fixed_defaults (selections : dict (list string))
    (options : list TemplateOption) : gmap string object :=
  defaults_of (filter (λ o, ¬ is_varying selections o) options).

(** The product of the lengths of some lists. *)
Definition product_of_lengths (lists : list (list string)) : nat :=
  foldr (λ l n, length l * n) 1 lists.

(** The entries an estimate counts: the key names a known option and the
    value list is not empty. *)
Definition counted_entries (options : list TemplateOption)
    (selections : dict (list string)) : list (string * list string) :=
  filter (λ e, e.1 ∈ (name <$> options) ∧ e.2 ≠ []) selections.


(** What [evaluate] returned for each of some validators. *)
Definition verdicts_of (project_info : ProjectInfo) (validators : list Plugin)
    (verdicts : list TasterResult) : Prop :=
  Forall2 (λ p v, test_project p project_info = inr v) validators verdicts.

(** The state of the options screen: its groups are those of the options,
    in order, and the labels of a group's checkboxes are the option's
    choices. *)
Definition groups_of (options : list TemplateOption) (groups : list OptionGroup) : Prop :=
  group_option <$> groups = options
  ∧ Forall (λ g, label_plain <$> checkboxes g = choices (group_option g)) groups.

(** The option an entry of the parsed cookiecutter.json stands for: an entry
    whose value is a non-empty list is an option named by its key, with the
    [str] of the items as choices and the [str] of the first item as default;
    any other entry is no option. *)
Definition option_of_entry (str_of_other : json → string) (entry : string * json)
  : option TemplateOption :=
  match entry.2 with
  | JList (first :: others) =>
      Some (mkTemplateOption entry.1 (str str_of_other <$> first :: others)
                             (str str_of_other first))
  | _ => None
  end.

(** In every group exactly the checkboxes labelled with the option's default
    are checked. *)
Definition only_defaults_checked (groups : list OptionGroup) : Prop :=
  ∀ g c, g ∈ groups → c ∈ checkboxes g →
    (value c = true ↔ label_plain c = default (group_option g)).

(** No checkbox of the screen is checked. *)
Definition nothing_checked (groups : list OptionGroup) : Prop :=
  ∀ g c, g ∈ groups → c ∈ checkboxes g → value c = false.

(** No [test_project] of a registered validator raises, on any project. *)
Definition never_raises (self : PluginManager) : Prop :=
  ∀ p project_info, p ∈ plugins self → ∃ v, test_project p project_info = inr v.

(** The context a run result was recorded for. *)
Definition result_context (r : RunResult) : gmap string object := r.1.1.

(** Every registered validator declares a non-empty name. *)
Definition names_nonempty (self : PluginManager) : Prop :=
  Forall (λ p, get_taster_name p ≠ EmptyString) (plugins self).

(** The registered validators declare pairwise distinct names. *)
Definition names_distinct (self : PluginManager) : Prop :=
  NoDup (get_taster_name <$> plugins self).

Definition is_test_project_call (c : HookCall) : Prop :=
  match c with Call_test_project _ => True | _ => False end.

#[export] Instance is_test_project_call_dec c : Decision (is_test_project_call c).
Proof. destruct c; simpl; apply _. Defined.

(* ===================================================================== *)
(** * Concrete inputs                                                      *)
(* ===================================================================== *)

(** The options of tests/test_combinations.py. *)
Definition db_option : TemplateOption :=
  mkTemplateOption "db" ["postgres"; "mysql"] "postgres".
Definition cache_option : TemplateOption :=
  mkTemplateOption "cache" ["redis"; "memcached"] "redis".

(** [test_generate_combinations_partial_selection]. *)
Definition db_cache_options : list TemplateOption := [db_option; cache_option].
Definition select_both_dbs : dict (list string) := [("db", ["postgres"; "mysql"])].

(** A selection that names the known option with an empty list only. *)
Definition select_nothing_for_db : dict (list string) := [("db", [])].

(** A selection map with a stale entry, for an option the template no
    longer has. *)
Definition select_with_stale_entry : dict (list string) :=
  [("db", ["postgres"; "mysql"]); ("invalid_option", ["x"; "y"; "z"])].



(** An option list that declares the name "db" twice. *)
Definition db_declared_twice : list TemplateOption := [db_option; db_option].

(** Two options of one name with different choices. *)
Definition db_sql_option : TemplateOption :=
  mkTemplateOption "db" ["postgres"; "mysql"] "postgres".
Definition db_nosql_option : TemplateOption :=
  mkTemplateOption "db" ["mongo"] "mongo".
Definition db_sql_then_nosql : list TemplateOption := [db_sql_option; db_nosql_option].

(** A generated project. *)
Definition a_project : ProjectInfo :=
  mkProjectInfo "/tmp/out/my-project" {[ "db" := Str "postgres" ]}
                (TemplateMetadata.mk "gh:example/template" None None).

Definition verdict (taster status_message : string) (st : TasterStatus) : TasterResult :=
  mkTasterResult taster st status_message [] 0.

(** A validator that passes, and one whose [test_project] raises. *)
Definition good_taster : Plugin :=
  mkPlugin "good" (λ _, true) (λ _, inr (verdict "good" "fine" SUCCESS)).
Definition raising_taster : Plugin :=
  mkPlugin "broken" (λ _, true) (λ _, inl (Raised "RuntimeError: boom")).
Definition good_and_raising : PluginManager :=
  mkPluginManager [good_taster; raising_taster].

(** Two validators that declare the name "lint"; only the first one
    registered can handle the project. *)
Definition lint_taster : Plugin :=
  mkPlugin "lint" (λ _, true) (λ _, inr (verdict "lint" "clean" SUCCESS)).
Definition other_lint_taster : Plugin :=
  mkPlugin "lint" (λ _, false) (λ _, inr (verdict "lint" "3 warnings" FAILURE)).
Definition two_lints : PluginManager :=
  mkPluginManager [lint_taster; other_lint_taster].

(** Two validators that declare the empty name. *)
Definition unnamed_taster : Plugin :=
  mkPlugin EmptyString (λ _, true) (λ _, inr (verdict EmptyString "first" SUCCESS)).
Definition other_unnamed_taster : Plugin :=
  mkPlugin EmptyString (λ _, true) (λ _, inr (verdict EmptyString "second" SUCCESS)).
Definition two_unnamed : PluginManager :=
  mkPluginManager [unnamed_taster; other_unnamed_taster].

(** Two validators of distinct names; only "docker" can handle the project. *)
Definition docker_taster : Plugin :=
  mkPlugin "docker" (λ _, true) (λ _, inr (verdict "docker" "image builds" SUCCESS)).
Definition heroku_taster : Plugin :=
  mkPlugin "heroku" (λ _, false) (λ _, inr (verdict "heroku" "no Procfile" FAILURE)).
Definition docker_and_heroku : PluginManager :=
  mkPluginManager [docker_taster; heroku_taster].


Definition a_generator : ProjectGenerator :=
  mkProjectGenerator "gh:example/template" "/tmp/out"
                     (TemplateMetadata.mk "gh:example/template" None None).

Definition a_context : gmap string object := {[ "db" := Str "postgres" ]}.

(** The same selections as [select_with_stale_entry] without the stale
    entry, in the other order of two known options. *)
Definition select_dbs_and_caches : dict (list string) :=
  [("db", ["postgres"; "mysql"]); ("cache", ["redis"; "memcached"])].
Definition select_caches_and_dbs : dict (list string) :=
  [("cache", ["redis"; "memcached"]); ("db", ["postgres"; "mysql"])].

(** A valid entry followed by one with two values that are no choices. *)
Definition select_two_invalid_caches : dict (list string) :=
  [("db", ["mysql"]); ("cache", ["couch"; "redis"; "etcd"])].

(** A base context with a key that is no option and a stale value for "db". *)
Definition a_base_context : gmap string object :=
  {[ "project_name" := Str "myproject"; "db" := Obj "['postgres', 'mysql']" ]}.

(** A parsed cookiecutter.json: a plain variable, two variables with
    choices, an empty list and a nested object. *)
Definition a_cookiecutter_json : dict json :=
  [("project_name", JString "My Project");
   ("db", JList [JString "postgres"; JString "mysql"]);
   ("extensions", JList []);
   ("python", JList [JOther "3.12"; JOther "3.13"]);
   ("_copy_without_render", JOther "{...}")].

(** [str] of the values of [a_cookiecutter_json] that are no strings. *)
Definition str_of_literal (value : json) : string :=
  match value with
  | JOther literal => literal
  | _ => "[...]"
  end.

(** The options screen for [db_cache_options] after the user has also
    checked "mysql" and has unchecked "redis". *)
Definition groups_both_dbs_no_cache : list OptionGroup :=
  [mkOptionGroup db_option [mkCheckbox "postgres" true; mkCheckbox "mysql" true];
   mkOptionGroup cache_option [mkCheckbox "redis" false; mkCheckbox "memcached" false]].

(** The same screen with the defaults checked and nothing else. *)
Definition groups_defaults_checked : list OptionGroup :=
  [mkOptionGroup db_option [mkCheckbox "postgres" true; mkCheckbox "mysql" false];
   mkOptionGroup cache_option [mkCheckbox "redis" true; mkCheckbox "memcached" false]].

(** The same screen with every checkbox unchecked. *)
Definition groups_all_unchecked : list OptionGroup :=
  [mkOptionGroup db_option [mkCheckbox "postgres" false; mkCheckbox "mysql" false];
   mkOptionGroup cache_option [mkCheckbox "redis" false; mkCheckbox "memcached" false]].

(** A registry of a validator with the empty name and a passing one. *)
Definition unnamed_and_good : PluginManager :=
  mkPluginManager [unnamed_taster; good_taster].

(** A templating library that refuses to write into an output directory
    that already holds a project. *)
Definition generates_once (template output_dir : string)
    (ctx : gmap string object) (written : nat) : (string + string) * nat :=
  match written with
  | 0 => (inr (output_dir +:+ "/my-project"), 1)
  | S _ => (inl "Error: /tmp/out/my-project directory already exists", written)
  end.

(** A templating library that always fails. *)
Definition never_generates (template output_dir : string)
    (ctx : gmap string object) (written : nat) : (string + string) * nat :=
  (inl "Error: template not found", written).

Definition a_second_context : gmap string object := {[ "db" := Str "mysql" ]}.

(* ===================================================================== *)
(** * Python primitives                                                    *)
(* ===================================================================== *)

Section Primitives.
Context {A B : Type}.

Lemma mapM_inr (f : A → result B) (g : A → B) (l : list A) :
  (∀ x, x ∈ l → f x = inr (g x)) → mapM f l = inr (g <$> l).
Proof.
  induction l as [|x l IH]; intros Hf; [done|].
  cbn. rewrite (Hf x) by left. cbn.
  rewrite IH; [done|]. intros y Hy. apply Hf. by right.
Qed.

Lemma zip_strict_inr (xs : list A) (ys : list B) :
  length xs = length ys → zip_strict xs ys = inr (zip xs ys).
Proof.
  revert ys. induction xs as [|x xs IH]; intros [|y ys] Hlen; try done.
  cbn. rewrite IH by (simpl in Hlen; lia). done.
Qed.

Lemma zip_strict_inl (xs : list A) (ys : list B) :
  length xs ≠ length ys → zip_strict xs ys = inl ZipLengthMismatch.
Proof.
  revert ys. induction xs as [|x xs IH]; intros [|y ys] Hlen; try done.
  cbn. rewrite IH by (simpl in Hlen; lia). done.
Qed.

Lemma bind_singleton_fmap (g : A → B) (l : list A) :
  l ≫= (λ y, [g y]) = g <$> l.
Proof. induction l as [|x l IH]; [done|]. rewrite bind_cons, IH. done. Qed.
End Primitives.

Section Product.
Context {A : Type}.
Implicit Types (pools : list (list A)) (pool : list A).

Lemma cartesian_cons pool pools :
  cartesian (pool :: pools) = pool ≫= (λ y, (y ::.) <$> cartesian pools).
Proof.
  cbn [cartesian]. apply list_bind_ext; [|done].
  intros y. apply bind_singleton_fmap.
Qed.

(** The loop of [product], started from any accumulated [acc]. *)
Lemma product_loop pools (acc : list (list A)) :
  foldl (λ result pool, x ← result; y ← pool; [x ++ [y]]) acc pools
  = acc ≫= (λ a, (a ++.) <$> cartesian pools).
Proof.
  revert acc. induction pools as [|pool pools IH]; intros acc.
  - cbn. rewrite <- (list_fmap_id acc) at 1.
    rewrite <- bind_singleton_fmap. apply list_bind_ext; [|done].
    intros a. cbn. by rewrite app_nil_r.
  - cbn [foldl]. rewrite IH. clear IH.
    induction acc as [|a acc IHacc]; [done|].
    rewrite !bind_cons, bind_app, IHacc. f_equal.
    rewrite cartesian_cons. clear IHacc.
    induction pool as [|y pool IHp]; [done|].
    rewrite !bind_cons, bind_app, fmap_app, IHp. f_equal.
    cbn. rewrite app_nil_r, <- !list_fmap_compose.
    apply list_fmap_ext. intros _ t _. cbn. by rewrite <- app_assoc.
Qed.

Lemma product_cartesian pools : product pools = cartesian pools.
Proof.
  unfold product. rewrite product_loop. cbn. rewrite app_nil_r.
  by rewrite list_fmap_id.
Qed.

Lemma product_snoc pools pool :
  product (pools ++ [pool]) = product pools ≫= (λ t, (λ y, t ++ [y]) <$> pool).
Proof.
  unfold product. rewrite foldl_app. cbn.
  apply list_bind_ext; [|done]. intros t. apply bind_singleton_fmap.
Qed.

Lemma length_cartesian_cons pool pools :
  length (cartesian (pool :: pools)) = length pool * length (cartesian pools).
Proof.
  rewrite cartesian_cons.
  induction pool as [|y pool IH]; [done|].
  rewrite bind_cons, length_app, IH, length_fmap. simpl. lia.
Qed.

Lemma elem_of_cartesian pools (t : list A) :
  t ∈ cartesian pools ↔ Forall2 (λ v pool, v ∈ pool) t pools.
Proof.
  revert t. induction pools as [|pool pools IH]; intros t.
  - cbn. rewrite list_elem_of_singleton. split.
    + intros ->. constructor.
    + by intros ->%Forall2_nil_inv_r.
  - rewrite cartesian_cons, list_elem_of_bind. split.
    + intros (y & Ht & Hy). apply list_elem_of_fmap in Ht as (t' & -> & Ht').
      constructor; [done|]. by apply IH.
    + intros (y & t' & Hy & Ht' & ->)%Forall2_cons_inv_r.
      exists y. split; [|done]. apply list_elem_of_fmap. exists t'.
      split; [done|]. by apply IH.
Qed.

(** Block structure of the enumeration: with [n] values in the last pool,
    output [i * n + j] is the [i]-th tuple over the earlier pools extended
    with the [j]-th value of the last pool. *)
Lemma product_snoc_lookup pools pool i j (t : list A) (y : A) :
  product pools !! i = Some t → pool !! j = Some y →
  product (pools ++ [pool]) !! (i * length pool + j) = Some (t ++ [y]).
Proof.
  rewrite product_snoc. generalize (product pools). intros l.
  revert i. induction l as [|t0 l IH]; intros i Hi Hj; [done|].
  rewrite bind_cons. destruct i as [|i]; simpl in Hi.
  - injection Hi as ->. simpl. rewrite lookup_app_l.
    + by rewrite list_lookup_fmap, Hj.
    + rewrite length_fmap. by eapply lookup_lt_Some.
  - rewrite lookup_app_r; rewrite length_fmap; [|simpl; lia].
    replace (S i * length pool + j - length pool) with (i * length pool + j)
      by (simpl; lia).
    by apply IH.
Qed.
End Product.

(* ===================================================================== *)
(** * The combination engine                                               *)
(* ===================================================================== *)

Section OptionMap.
Implicit Types (options : list TemplateOption) (o : TemplateOption) (k : string).

Lemma build_option_map_snoc options o :
  build_option_map (options ++ [o]) = <[name o := o]> (build_option_map options).
Proof. unfold build_option_map. by rewrite foldl_snoc. Qed.

Lemma build_option_map_None options k :
  build_option_map options !! k = None ↔ k ∉ name <$> options.
Proof.
  induction options as [|o options IH] using rev_ind.
  - cbn. rewrite lookup_empty. split; [intros _; apply not_elem_of_nil|done].
  - rewrite build_option_map_snoc, fmap_app, lookup_insert_None, IH.
    cbn. rewrite not_elem_of_app, list_elem_of_singleton. naive_solver.
Qed.

Lemma build_option_map_Some options k o :
  build_option_map options !! k = Some o → o ∈ options ∧ name o = k.
Proof.
  induction options as [|o' options IH] using rev_ind.
  - cbn. by rewrite lookup_empty.
  - rewrite build_option_map_snoc, lookup_insert_Some, elem_of_app,
      list_elem_of_singleton. naive_solver.
Qed.

Lemma build_option_map_lookup options o :
  distinct_names options → o ∈ options →
  build_option_map options !! name o = Some o.
Proof.
  unfold distinct_names.
  induction options as [|o' options IH] using rev_ind; intros Hnd Ho.
  - by apply elem_of_nil in Ho.
  - rewrite fmap_app in Hnd. apply NoDup_app in Hnd as (Hnd & Hfresh & _).
    rewrite build_option_map_snoc.
    apply elem_of_app in Ho as [Ho| ->%list_elem_of_singleton].
    + rewrite lookup_insert_ne; [by apply IH|].
      intros Heq. apply (Hfresh (name o)).
      * by apply list_elem_of_fmap_2.
      * rewrite <- Heq. cbn. left.
    + by rewrite lookup_insert_eq.
Qed.
End OptionMap.

Section Selections.
Implicit Types (selections : dict (list string)) (o : TemplateOption).

Lemma dict_get_Some {V} (d : dict V) k v : dict_get d k = Some v → (k, v) ∈ d.
Proof.
  induction d as [|[k' v'] d IH]; [done|]. cbn.
  destruct (decide (k' = k)) as [->|]; [intros [= ->]; left|].
  intros ?. right. by apply IH.
Qed.

Lemma dict_get_None {V} (d : dict V) k : dict_get d k = None ↔ k ∉ d.*1.
Proof.
  induction d as [|[k' v'] d IH]; cbn.
  - split; [intros _; apply not_elem_of_nil|done].
  - rewrite not_elem_of_cons. destruct (decide (k' = k)); naive_solver.
Qed.

Lemma dict_get_elem_of {V} (d : dict V) k v :
  dict_wf d → (k, v) ∈ d → dict_get d k = Some v.
Proof.
  unfold dict_wf. induction d as [|[k' v'] d IH]; intros Hwf Hin.
  - by apply elem_of_nil in Hin.
  - cbn in Hwf. apply NoDup_cons in Hwf as [Hk' Hwf]. cbn.
    apply elem_of_cons in Hin as [[= <- <-]|Hin].
    + by rewrite decide_True.
    + rewrite decide_False; [by apply IH|].
      intros ->. apply Hk'. apply list_elem_of_fmap. by exists (k, v).
Qed.

Lemma is_varying_varies selections o :
  is_varying selections o = true ↔ varies selections o.
Proof.
  unfold is_varying, varies. destruct (dict_get _ _) as [values|].
  - rewrite bool_decide_eq_true. split.
    + intros Hlen. exists values. split; [done|]. intros ->. simpl in Hlen. lia.
    + intros (? & [= <-] & Hne). destruct values; [done|simpl; lia].
  - split; [done|]. by intros (? & ? & _).
Qed.

Lemma is_fixed_varying selections o :
  is_fixed selections o = negb (is_varying selections o).
Proof.
  unfold is_fixed, is_varying. destruct (dict_get _ _) as [values|]; [|done].
  repeat case_bool_decide; destruct values; simpl in *; try done; lia.
Qed.

Lemma varying_options_names selections options :
  varying_options selections options = varying_names selections options.
Proof.
  unfold varying_options, varying_names.
  induction options as [|o options IH]; [done|].
  cbn. unfold is_varying.
  destruct (dict_get _ _) as [[|v values]|]; cbn;
    try case_bool_decide; try lia; cbn; by rewrite ?IH.
Qed.

Lemma varying_values_lists selections options :
  varying_values selections options = varying_lists selections options.
Proof.
  unfold varying_values, varying_lists.
  induction options as [|o options IH]; [done|].
  cbn. unfold is_varying.
  destruct (dict_get _ _) as [[|v values]|]; cbn;
    try case_bool_decide; try lia; cbn; by rewrite ?IH.
Qed.

Lemma elem_of_varying selections options k values :
  (k, values) ∈ varying selections options ↔
  ∃ o, o ∈ options ∧ name o = k
       ∧ dict_get selections k = Some values ∧ values ≠ [].
Proof.
  induction options as [|o options IH]; cbn.
  - split; [by intros ?%elem_of_nil|]. by intros (? & ?%elem_of_nil & _).
  - destruct (is_varying selections o) eqn:Hv.
    + apply is_varying_varies in Hv as (vs & Hget & Hne).
      rewrite elem_of_cons, IH, Hget. cbn. split.
      * intros [[= -> ->]|(o' & ? & ? & ?)].
        -- exists o. split; [left|done].
        -- exists o'. split; [by right|done].
      * intros (o' & [->|Ho']%elem_of_cons & Hn & Hg & Hne').
        -- left. subst k. rewrite Hget in Hg. by injection Hg as ->.
        -- right. by exists o'.
    + rewrite IH. split.
      * intros (o' & ? & ?). exists o'. split; [by right|done].
      * intros (o' & [->|Ho']%elem_of_cons & Hn & Hg & Hne').
        -- subst k. assert (is_varying selections o = true) as Hv'; [|congruence].
           apply is_varying_varies. by exists values.
        -- by exists o'.
Qed.

Lemma varying_nil selections options :
  varying selections options = [] ↔ ∀ o, o ∈ options → ¬ varies selections o.
Proof.
  split.
  - intros Hnil o Ho (values & Hget & Hne).
    assert ((name o, values) ∈ varying selections options) as Hin.
    { apply elem_of_varying. by exists o. }
    rewrite Hnil in Hin. by apply elem_of_nil in Hin.
  - intros Hfix. destruct (varying selections options) as [|[k values] l] eqn:E; [done|].
    assert ((k, values) ∈ varying selections options) as Hin by (rewrite E; left).
    apply elem_of_varying in Hin as (o & Ho & <- & Hget & Hne).
    destruct (Hfix o Ho). by exists values.
Qed.
End Selections.

Section Contexts.
Implicit Types (ctx : gmap string object) (options : list TemplateOption).

Lemma mapping_nil : mapping [] = ∅.
Proof. done. Qed.

Lemma mapping_snoc pairs k v :
  mapping (pairs ++ [(k, v)]) = <[k := Str v]> (mapping pairs).
Proof. unfold mapping. by rewrite fmap_app, reverse_app. Qed.

Lemma merge_empty ctx : merge ctx ∅ = ctx.
Proof. unfold merge. apply (left_id _ _). Qed.

Lemma merge_insert ctx later k x :
  <[k := x]> (merge ctx later) = merge ctx (<[k := x]> later).
Proof. unfold merge. apply insert_union_l. Qed.

(** On a common key the later mapping wins. *)
Lemma lookup_merge ctx later k :
  merge ctx later !! k = match later !! k with Some x => Some x | None => ctx !! k end.
Proof.
  unfold merge. destruct (later !! k) as [x|] eqn:E.
  - by apply lookup_union_Some_l.
  - by rewrite lookup_union_r.
Qed.

Lemma apply_pairs_merge pairs ctx :
  apply_pairs pairs ctx = merge ctx (mapping pairs).
Proof.
  unfold apply_pairs.
  induction pairs as [|[k v] pairs IH] using rev_ind.
  - by rewrite mapping_nil, merge_empty.
  - by rewrite foldl_snoc, IH, mapping_snoc, merge_insert.
Qed.

Lemma defaults_of_snoc options o :
  defaults_of (options ++ [o]) = <[name o := Str (default o)]> (defaults_of options).
Proof. unfold defaults_of. rewrite fmap_app. apply mapping_snoc. Qed.

Lemma all_defaults_merge options ctx :
  all_defaults options ctx = merge ctx (defaults_of options).
Proof.
  unfold all_defaults.
  induction options as [|o options IH] using rev_ind.
  - by rewrite merge_empty.
  - by rewrite foldl_snoc, IH, defaults_of_snoc, merge_insert.
Qed.

Lemma add_fixed_defaults_merge selections options ctx :
  add_fixed_defaults selections options ctx
  = merge ctx (fixed_defaults selections options).
Proof.
  unfold add_fixed_defaults, fixed_defaults.
  induction options as [|o options IH] using rev_ind.
  - by rewrite merge_empty.
  - rewrite foldl_snoc, IH, filter_app, is_fixed_varying.
    destruct (is_varying selections o) eqn:Hv; cbn [negb].
    + rewrite filter_cons_False, filter_nil, app_nil_r; [done|].
      rewrite Hv. cbn. tauto.
    + rewrite filter_cons_True, filter_nil by (rewrite Hv; cbn; tauto).
      by rewrite defaults_of_snoc, merge_insert.
Qed.

Lemma fixed_defaults_all selections options :
  (∀ o, o ∈ options → ¬ varies selections o) →
  fixed_defaults selections options = defaults_of options.
Proof.
  intros Hfix. unfold fixed_defaults. f_equal.
  induction options as [|o options IH]; [done|].
  rewrite filter_cons_True.
  - f_equal. apply IH. intros o' Ho'. apply Hfix. by right.
  - intros Hv%Is_true_true%is_varying_varies. apply (Hfix o); [left|done].
Qed.

(** The body of the loop never meets the [ValueError] of the strict zip:
    a product tuple has one value per varying option. *)
Lemma combo_context_inr options selections ctx value_tuple :
  value_tuple ∈ product (varying_values selections options) →
  combo_context options selections ctx value_tuple
  = inr (merge (merge ctx (assignments selections options value_tuple))
               (fixed_defaults selections options)).
Proof.
  intros Hin. rewrite product_cartesian in Hin.
  apply elem_of_cartesian, Forall2_length in Hin.
  unfold combo_context. rewrite zip_strict_inr.
  - cbn. rewrite add_fixed_defaults_merge, apply_pairs_merge.
    unfold assignments. by rewrite varying_options_names.
  - unfold varying_options, varying_values in *. by rewrite !length_fmap in *.
Qed.
End Contexts.


Section Validation.
Implicit Types (option_map : gmap string TemplateOption) (items : dict (list string)).

Lemma no_invalid_values (valid values : list string) :
  filter (λ v, v ∉ valid) values = [] ↔ ∀ v, v ∈ values → v ∈ valid.
Proof.
  split.
  - intros Hnil v Hv. destruct (decide (v ∈ valid)) as [|Hbad]; [done|].
    by destruct (filter_nil_not_elem_of _ _ v Hnil Hbad).
  - intros Hall. destruct (filter _ values) as [|v l] eqn:E; [done|].
    assert (v ∈ filter (λ v, v ∉ valid) values) as Hv by (rewrite E; left).
    apply list_elem_of_filter in Hv as [Hbad Hv]. destruct Hbad. by apply Hall.
Qed.

Lemma validate_selections_inr option_map items :
  validate_selections option_map items = inr () ↔
  ∀ k values, (k, values) ∈ items →
    ∃ o, option_map !! k = Some o ∧ ∀ v, v ∈ values → v ∈ choices o.
Proof.
  induction items as [|[k values] items IH]; cbn.
  - split; [|done]. by intros _ ? ? ?%elem_of_nil.
  - destruct (option_map !! k) as [o|] eqn:Hk.
    + destruct (filter _ values) as [|v l] eqn:Hf.
      * rewrite IH.
        pose proof (proj1 (no_invalid_values (choices o) values) Hf) as Hok.
        split.
        -- intros Hrest k' values' [[= -> ->]|Hin]%elem_of_cons; [by exists o|].
           by apply Hrest.
        -- intros Hall k' values' Hin. apply Hall. by right.
      * split; [done|]. intros Hall.
        destruct (Hall k values) as (o' & Ho' & Hvalid); [left|].
        rewrite Hk in Ho'. injection Ho' as <-.
        pose proof (proj2 (no_invalid_values (choices o) values) Hvalid). congruence.
    + split; [done|]. intros Hall.
      destruct (Hall k values) as (o' & Ho' & _); [left|]. congruence.
Qed.

Lemma valid_selections_validate options items :
  distinct_names options → valid_selections options items →
  validate_selections (build_option_map options) items = inr ().
Proof.
  intros Hnd Hvalid. apply validate_selections_inr. intros k values Hin.
  destruct (Hvalid k values Hin) as (o & Ho & <- & Hchoices).
  exists o. split; [|done]. by apply build_option_map_lookup.
Qed.
End Validation.

(* ===================================================================== *)
(** * Claims about the combination engine                                  *)
(* ===================================================================== *)

(** C7. With an empty selection map, [generate_combinations] returns exactly
    one context: the base context merged with every option's default, the
    defaults winning on a common key.  The same holds for a selection map
    that passes the validation of lines 46-61 and in which no option has a
    non-empty value list. *)
Theorem C7_no_varying_option_one_default_context
    (options : list TemplateOption) (base_context : option (gmap string object)) :
  generate_combinations options [] base_context
    = inr [merge (from_option id ∅ base_context) (defaults_of options)]
  ∧ ∀ selections,
      validate_selections (build_option_map options) selections = inr () →
      (∀ o, o ∈ options → ¬ varies selections o) →
      generate_combinations options selections base_context
        = inr [merge (from_option id ∅ base_context) (defaults_of options)].
Proof.
  assert (∀ selections,
      validate_selections (build_option_map options) selections = inr () →
      (∀ o, o ∈ options → ¬ varies selections o) →
      generate_combinations options selections base_context
        = inr [merge (from_option id ∅ base_context) (defaults_of options)]) as Hgen.
  { intros selections Hvalid Hfix. unfold generate_combinations.
    rewrite Hvalid. cbn. apply varying_nil in Hfix.
    unfold varying_options. rewrite Hfix. cbn.
    by rewrite all_defaults_merge. }
  split; [|done]. apply Hgen; [done|].
  intros o _ (values & Hget & _). done.
Qed.

Lemma C7_witness :
  generate_combinations db_cache_options select_nothing_for_db None
  = inr [merge ∅ (defaults_of db_cache_options)].
Proof.
  apply (C7_no_varying_option_one_default_context db_cache_options None).
  - vm_compute. reflexivity.
  - intros o Ho (values & Hget & Hne).
    unfold db_cache_options in Ho.
    apply elem_of_cons in Ho as [->|Ho]; [|apply elem_of_cons in Ho as [->|Ho]].
    + vm_compute in Hget. congruence.
    + vm_compute in Hget. congruence.
    + by apply elem_of_nil in Ho.
Defined.

(** C2. When the selection map has passed the validation of lines 46-61 and
    at least one option varies, [generate_combinations] returns one context
    per tuple of the cartesian product of the varying options' value lists,
    taken in option declaration order; the context of a tuple is the base
    context merged with the tuple's assignments merged with the defaults of
    the fixed options; and in the enumeration the last list cycles fastest. *)
Theorem C2_expand_is_cartesian_product
    (options : list TemplateOption) (selections : dict (list string))
    (base_context : option (gmap string object)) :
  validate_selections (build_option_map options) selections = inr () →
  (∃ o, o ∈ options ∧ varies selections o) →
  generate_combinations options selections base_context
    = inr ((λ value_tuple,
              merge (merge (from_option id ∅ base_context)
                           (assignments selections options value_tuple))
                    (fixed_defaults selections options))
           <$> cartesian (varying_lists selections options))
  ∧ ∀ (pools : list (list string)) pool i j t y,
      cartesian pools !! i = Some t → pool !! j = Some y →
      cartesian (pools ++ [pool]) !! (i * length pool + j) = Some (t ++ [y]).
Proof.
  intros Hvalid (o & Ho & Hvaries). split.
  - unfold generate_combinations. rewrite Hvalid. cbn.
    destruct (varying_options selections options) as [|k ks] eqn:Hnames.
    + apply fmap_nil_inv in Hnames.
      destruct (proj1 (varying_nil selections options) Hnames o Ho Hvaries).
    + rewrite <- varying_values_lists, <- product_cartesian.
      apply mapM_inr. intros value_tuple Hin. by apply combo_context_inr.
  - intros pools pool i j t y Hi Hj. rewrite <- !product_cartesian in *.
    by apply product_snoc_lookup.
Qed.

Lemma C2_witness :
  generate_combinations db_cache_options select_both_dbs None
  = inr [ {[ "db" := Str "postgres"; "cache" := Str "redis" ]};
          {[ "db" := Str "mysql"; "cache" := Str "redis" ]} ].
Proof.
  pose proof (C2_expand_is_cartesian_product db_cache_options select_both_dbs None) as H.
  destruct H as [H _].
  - vm_compute. reflexivity.
  - exists db_option. split; [left|].
    exists ["postgres"; "mysql"]. split; [reflexivity|discriminate].
  - rewrite H. vm_compute. reflexivity.
Defined.

Section Estimate.
Implicit Types (options : list TemplateOption) (selections : dict (list string)).

Lemma is_Some_build_option_map options k :
  is_Some (build_option_map options !! k) ↔ k ∈ name <$> options.
Proof.
  rewrite <- not_eq_None_Some, build_option_map_None.
  destruct (decide (k ∈ name <$> options)); naive_solver.
Qed.

Lemma counted_entries_cons options k values selections :
  counted_entries options ((k, values) :: selections)
  = if bool_decide (is_Some (build_option_map options !! k))
       && bool_decide (0 < length values)
    then (k, values) :: counted_entries options selections
    else counted_entries options selections.
Proof.
  unfold counted_entries.
  destruct (_ && _) eqn:E.
  - apply andb_true_iff in E as [Hk%bool_decide_eq_true Hlen%bool_decide_eq_true].
    apply filter_cons_True. cbn. split; [by apply is_Some_build_option_map|].
    intros ->. simpl in Hlen. lia.
  - apply filter_cons_False. cbn. intros [Hk Hne].
    apply andb_false_iff in E as [E%bool_decide_eq_false|E%bool_decide_eq_false].
    + apply E. by apply is_Some_build_option_map.
    + destruct values; [done|]. simpl in E. lia.
Qed.

(** The counting loop, started from any [count]. *)
Lemma estimate_loop options selections count :
  foldl (λ count '(option_name, selected_values),
           if bool_decide (is_Some (build_option_map options !! option_name))
              && bool_decide (0 < length selected_values)
           then count * length selected_values else count)
        count selections
  = count * product_of_lengths (counted_entries options selections).*2.
Proof.
  revert count. induction selections as [|[k values] selections IH]; intros count.
  - cbn. lia.
  - cbn [foldl]. rewrite IH, counted_entries_cons.
    destruct (_ && _); [|done].
    rewrite fmap_cons. unfold product_of_lengths. cbn [foldr snd].
    by rewrite Nat.mul_assoc.
Qed.

Lemma estimate_product options selections :
  estimate_combination_count options selections
  = product_of_lengths (counted_entries options selections).*2.
Proof. unfold estimate_combination_count. rewrite estimate_loop. lia. Qed.

Lemma counted_entries_app options l1 l2 :
  counted_entries options (l1 ++ l2)
  = counted_entries options l1 ++ counted_entries options l2.
Proof. apply filter_app. Qed.
End Estimate.

(** C9. [estimate_combination_count] returns, for every option list and every
    selection map, the product of [len(values)] over the entries whose key
    names a known option and whose value list is not empty; it has no failing
    path, and an entry with an unknown option name does not change the
    result. *)
Theorem C9_estimate_is_product_over_known_nonempty
    (options : list TemplateOption) (selections : dict (list string)) :
  estimate_combination_count options selections
    = product_of_lengths (counted_entries options selections).*2
  ∧ ∀ before k values after,
      selections = before ++ (k, values) :: after →
      ¬ known_option options k →
      estimate_combination_count options selections
      = estimate_combination_count options (before ++ after).
Proof.
  split; [apply estimate_product|].
  intros before k values after -> Hunknown.
  rewrite !estimate_product, !counted_entries_app. do 3 f_equal.
  apply filter_cons_False. cbn. intros [Hk _]. by apply Hunknown.
Qed.

Lemma C9_witness :
  estimate_combination_count db_cache_options select_with_stale_entry
  = estimate_combination_count db_cache_options select_both_dbs.
Proof.
  apply (C9_estimate_is_product_over_known_nonempty
           db_cache_options select_with_stale_entry)
    with (before := [("db", ["postgres"; "mysql"])]) (k := "invalid_option")
         (values := ["x"; "y"; "z"]) (after := []).
  - reflexivity.
  - unfold known_option. vm_compute. intros H.
    repeat (apply elem_of_cons in H as [H|H]; [discriminate H|]).
    by apply elem_of_nil in H.
Defined.

Section UnknownOptions.
Implicit Types (option_map : gmap string TemplateOption).

Lemma validate_selections_app option_map (l1 l2 : dict (list string)) :
  validate_selections option_map (l1 ++ l2)
  = validate_selections option_map l1 ≫= λ _, validate_selections option_map l2.
Proof.
  induction l1 as [|[k values] l1 IH]; [done|]. cbn.
  destruct (option_map !! k); [|done]. by destruct (filter _ values).
Qed.

Lemma generate_combinations_invalid options selections base_context e :
  validate_selections (build_option_map options) selections = inl e →
  generate_combinations options selections base_context = inl e.
Proof. intros H. unfold generate_combinations. by rewrite H. Qed.
End UnknownOptions.




Section Counting.
Implicit Types (options : list TemplateOption) (selections : dict (list string)).

Lemma length_cartesian (pools : list (list string)) :
  length (cartesian pools) = product_of_lengths pools.
Proof.
  induction pools as [|pool pools IH]; [done|].
  rewrite length_cartesian_cons, IH. done.
Qed.

Lemma product_of_lengths_Permutation (l k : list (list string)) :
  l ≡ₚ k → product_of_lengths l = product_of_lengths k.
Proof.
  induction 1 as [|x l k _ IH|x y l|l k m _ IH1 _ IH2]; cbn.
  - done.
  - unfold product_of_lengths in IH. by rewrite IH.
  - lia.
  - congruence.
Qed.

Lemma distinct_names_cons o options :
  distinct_names (o :: options) ↔ (name o ∉ name <$> options) ∧ distinct_names options.
Proof. unfold distinct_names. rewrite fmap_cons. apply NoDup_cons. Qed.

Lemma distinct_names_inj options o1 o2 :
  distinct_names options → o1 ∈ options → o2 ∈ options →
  name o1 = name o2 → o1 = o2.
Proof.
  induction options as [|o options IH]; intros Hnd H1 H2 Heq.
  - by apply elem_of_nil in H1.
  - apply distinct_names_cons in Hnd as [Hfresh Hnd].
    apply elem_of_cons in H1 as [->|H1]; apply elem_of_cons in H2 as [->|H2].
    + done.
    + destruct Hfresh. rewrite Heq. by apply list_elem_of_fmap_2.
    + destruct Hfresh. rewrite <- Heq. by apply list_elem_of_fmap_2.
    + by apply IH.
Qed.

Lemma varying_keys_distinct selections options :
  distinct_names options → NoDup ((varying selections options).*1).
Proof.
  induction options as [|o options IH]; intros Hnd; [constructor|].
  apply distinct_names_cons in Hnd as [Hfresh Hnd]. cbn.
  destruct (is_varying selections o); [|by apply IH].
  cbn. apply NoDup_cons. split; [|by apply IH].
  intros ([k values] & Hk & Hin)%list_elem_of_fmap. cbn in Hk. subst k.
  apply elem_of_varying in Hin as (o' & Ho' & Hname & _).
  apply Hfresh. rewrite <- Hname. by apply list_elem_of_fmap_2.
Qed.

(** With distinct option names, the varying options and the entries the
    estimate counts are the same entries, up to order. *)
Lemma varying_counted_entries options selections :
  distinct_names options → dict_wf selections →
  varying selections options ≡ₚ counted_entries options selections.
Proof.
  intros Hnd Hwf. apply NoDup_Permutation.
  - eapply NoDup_fmap_1, varying_keys_distinct, Hnd.
  - apply NoDup_filter. by eapply NoDup_fmap_1.
  - intros [k values]. rewrite elem_of_varying.
    unfold counted_entries. rewrite list_elem_of_filter. cbn. split.
    + intros (o & Ho & <- & Hget & Hne). split; [split|].
      * by apply list_elem_of_fmap_2.
      * done.
      * by apply dict_get_Some.
    + intros [[(o & -> & Ho)%list_elem_of_fmap Hne] Hin].
      exists o. split; [done|]. split; [done|]. split; [|done].
      by apply dict_get_elem_of.
Qed.

(** Whenever validation passes, there are as many contexts as tuples in
    the product of the varying value lists. *)
Lemma generate_combinations_length options selections base_context :
  validate_selections (build_option_map options) selections = inr () →
  ∃ contexts,
    generate_combinations options selections base_context = inr contexts
    ∧ length contexts = product_of_lengths (varying selections options).*2.
Proof.
  intros Hvalid. unfold generate_combinations. rewrite Hvalid. cbn.
  destruct (varying_options selections options) as [|k ks] eqn:Hnames.
  - eexists. split; [done|].
    apply fmap_nil_inv in Hnames. by rewrite Hnames.
  - eexists. split.
    + apply mapM_inr. intros value_tuple Hin. by apply combo_context_inr.
    + rewrite length_fmap, product_cartesian, length_cartesian. done.
Qed.
End Counting.

(** C5 (counterexample).  An option list that declares one name twice: the
    selection map is valid, [generate_combinations] returns four contexts and
    [estimate_combination_count] returns two. *)
Lemma C5_same_name_twice_four_contexts_estimate_two :
  valid_selections db_declared_twice select_both_dbs
  ∧ (∀ o, o ∈ db_declared_twice → constructed o)
  ∧ dict_wf select_both_dbs
  ∧ ∃ contexts,
      generate_combinations db_declared_twice select_both_dbs None = inr contexts
      ∧ length contexts = 4
      ∧ estimate_combination_count db_declared_twice select_both_dbs = 2.
Proof.
  split; [|split; [|split]].
  - intros k values [[= -> ->]|[]%elem_of_nil]%elem_of_cons.
    exists db_option. split; [left|]. split; [done|]. by intros v Hv.
  - intros o [->|[->|[]%elem_of_nil]%elem_of_cons]%elem_of_cons; reflexivity.
  - unfold dict_wf. cbn. apply NoDup_singleton.
  - eexists. split; [vm_compute; reflexivity|]. split; reflexivity.
Qed.

(** C5 (amended).  For an option list whose names are pairwise distinct and
    a selection map in which every selected name names a known option and
    every selected value is a valid choice, [generate_combinations] returns
    a list whose length is the integer [estimate_combination_count] returns. *)
Theorem C5_expand_length_is_estimate_for_distinct_names
    (options : list TemplateOption) (selections : dict (list string))
    (base_context : option (gmap string object)) :
  distinct_names options →
  dict_wf selections →
  valid_selections options selections →
  ∃ contexts,
    generate_combinations options selections base_context = inr contexts
    ∧ length contexts = estimate_combination_count options selections.
Proof.
  intros Hnd Hwf Hvalid.
  destruct (generate_combinations_length options selections base_context)
    as (contexts & Hgen & Hlen); [by apply valid_selections_validate|].
  exists contexts. split; [done|].
  rewrite Hlen, estimate_product.
  apply product_of_lengths_Permutation, fmap_Permutation.
  by apply varying_counted_entries.
Qed.

Lemma C5_witness :
  ∃ contexts,
    generate_combinations db_cache_options select_both_dbs None = inr contexts
    ∧ length contexts = estimate_combination_count db_cache_options select_both_dbs.
Proof.
  apply (C5_expand_length_is_estimate_for_distinct_names
           db_cache_options select_both_dbs None).
  - unfold distinct_names. cbn. repeat constructor; set_solver.
  - unfold dict_wf. cbn. apply NoDup_singleton.
  - intros k values [[= -> ->]|[]%elem_of_nil]%elem_of_cons.
    exists db_option. split; [left|]. split; [done|]. by intros v Hv.
Defined.

Section Choices.
Implicit Types (options : list TemplateOption) (selections : dict (list string))
  (ctx : gmap string object).

Lemma constructed_default_in_choices o : constructed o → default o ∈ choices o.
Proof.
  unfold constructed, new_TemplateOption, post_init. cbn.
  destruct (decide (choices o = [])); [done|].
  by destruct (decide (default o ∈ choices o)).
Qed.

Lemma mapping_lookup_None pairs k : k ∉ pairs.*1 → mapping pairs !! k = None.
Proof.
  induction pairs as [|[k' v] pairs IH] using rev_ind; [done|].
  rewrite fmap_app, not_elem_of_app, mapping_snoc. cbn.
  intros [Hk Hne%not_elem_of_cons]. rewrite lookup_insert_ne; [by apply IH|].
  naive_solver.
Qed.

(** A key some pair carries is mapped to the value of one of its pairs. *)
Lemma mapping_lookup_elem_of pairs k :
  k ∈ pairs.*1 → ∃ v, mapping pairs !! k = Some (Str v) ∧ (k, v) ∈ pairs.
Proof.
  induction pairs as [|[k' v'] pairs IH] using rev_ind.
  - by intros ?%elem_of_nil.
  - rewrite fmap_app, mapping_snoc. cbn. intros Hk.
    destruct (decide (k' = k)) as [->|Hne].
    + exists v'. rewrite lookup_insert_eq. split; [done|].
      apply elem_of_app. right. left.
    + rewrite lookup_insert_ne by done.
      apply elem_of_app in Hk as [Hk|Hk%list_elem_of_singleton]; [|congruence].
      destruct (IH Hk) as (v & Hv & Hin). exists v. split; [done|].
      apply elem_of_app. by left.
Qed.

Lemma defaults_of_lookup options o :
  distinct_names options → o ∈ options →
  defaults_of options !! name o = Some (Str (default o)).
Proof.
  intros Hnd Ho. unfold defaults_of.
  destruct (mapping_lookup_elem_of ((λ o, (name o, default o)) <$> options) (name o))
    as (v & Hv & Hin).
  - rewrite <- list_fmap_compose. by apply (list_elem_of_fmap_2 name).
  - apply list_elem_of_fmap in Hin as (o' & [= Hname ->] & Ho').
    assert (o = o') as <- by (by apply (distinct_names_inj options)).
    exact Hv.
Qed.

Lemma defaults_of_lookup_None options k :
  k ∉ name <$> options → defaults_of options !! k = None.
Proof.
  intros Hk. apply mapping_lookup_None. by rewrite <- list_fmap_compose.
Qed.

Lemma distinct_names_filter (P : TemplateOption → Prop) `{∀ o, Decision (P o)} options :
  distinct_names options → distinct_names (filter P options).
Proof.
  induction options as [|o options IH]; [done|].
  intros [Hfresh Hnd]%distinct_names_cons.
  destruct (decide (P o)).
  - rewrite filter_cons_True by done. apply distinct_names_cons.
    split; [|by apply IH].
    intros (o' & Hname & [_ Ho']%list_elem_of_filter)%list_elem_of_fmap.
    apply Hfresh. rewrite Hname. by apply list_elem_of_fmap_2.
  - rewrite filter_cons_False by done. by apply IH.
Qed.

(** A value a product tuple assigns to a varying name is one of the values
    selected for that name. *)
Lemma zip_product_tuple (l : list (string * list string)) value_tuple k v :
  Forall2 (λ v pool, v ∈ pool) value_tuple (l.*2) →
  (k, v) ∈ zip (l.*1) value_tuple →
  ∃ pool, (k, pool) ∈ l ∧ v ∈ pool.
Proof.
  revert value_tuple. induction l as [|[k' pool] l IH]; intros value_tuple.
  - by intros _ ?%elem_of_nil.
  - intros (v' & tuple' & Hv' & Hrest & ->)%Forall2_cons_inv_r. cbn.
    intros [[= -> ->]|Hin]%elem_of_cons.
    + exists pool. split; [left|done].
    + destruct (IH tuple' Hrest Hin) as (pool' & ? & ?).
      exists pool'. split; [by right|done].
Qed.

Lemma fixed_defaults_lookup selections options o :
  distinct_names options → o ∈ options →
  fixed_defaults selections options !! name o
  = if is_varying selections o then None else Some (Str (default o)).
Proof.
  intros Hnd Ho. unfold fixed_defaults.
  destruct (is_varying selections o) eqn:Hv.
  - apply defaults_of_lookup_None.
    intros (o' & Hname & [Hfixed Ho']%list_elem_of_filter)%list_elem_of_fmap.
    rewrite (distinct_names_inj options o o') in Hv by done.
    rewrite Hv in Hfixed. by apply Hfixed.
  - apply defaults_of_lookup.
    + by apply distinct_names_filter.
    + apply list_elem_of_filter. split; [|done]. rewrite Hv. cbn. tauto.
Qed.

Lemma assignments_lookup selections options value_tuple o :
  o ∈ options → is_varying selections o = true →
  value_tuple ∈ product (varying_values selections options) →
  ∃ v values, assignments selections options value_tuple !! name o = Some (Str v)
              ∧ dict_get selections (name o) = Some values ∧ v ∈ values.
Proof.
  intros Ho (values & Hget & Hne)%is_varying_varies Hin.
  rewrite product_cartesian in Hin. apply elem_of_cartesian in Hin.
  unfold assignments. rewrite <- varying_options_names.
  unfold varying_options, varying_values in *.
  destruct (mapping_lookup_elem_of
              (zip (varying selections options).*1 value_tuple) (name o))
    as (v & Hv & Hzip).
  - rewrite fst_zip.
    + apply list_elem_of_fmap. exists (name o, values). split; [done|].
      apply elem_of_varying. by exists o.
    + apply Forall2_length in Hin. rewrite !length_fmap in *. lia.
  - destruct (zip_product_tuple _ _ _ _ Hin Hzip) as (pool & Hpool & Hvp).
    apply elem_of_varying in Hpool as (_ & _ & _ & Hget' & _).
    exists v, pool. done.
Qed.
End Choices.

(** C8 (counterexample).  Two constructed options of one name with different
    choices and an empty (valid) selection map: the only context maps "db"
    to the second option's default, which is not one of the first option's
    choices. *)
Lemma C8_same_name_context_value_outside_choices :
  (∀ o, o ∈ db_sql_then_nosql → constructed o)
  ∧ valid_selections db_sql_then_nosql []
  ∧ generate_combinations db_sql_then_nosql [] None = inr [ {[ "db" := Str "mongo" ]} ]
  ∧ db_sql_option ∈ db_sql_then_nosql
  ∧ ({[ "db" := Str "mongo" ]} : gmap string object) !! name db_sql_option
    = Some (Str "mongo")
  ∧ "mongo" ∉ choices db_sql_option.
Proof.
  split; [|split; [|split; [|split; [|split]]]].
  - intros o [->|[->|[]%elem_of_nil]%elem_of_cons]%elem_of_cons; reflexivity.
  - by intros k values ?%elem_of_nil.
  - vm_compute. reflexivity.
  - left.
  - reflexivity.
  - cbn. intros [[=]|[[=]|[]%elem_of_nil]%elem_of_cons]%elem_of_cons.
Qed.

(** C8 (amended).  For an option list whose names are pairwise distinct and
    whose options all come from the constructor, and a valid selection map,
    [generate_combinations] returns contexts that map each option's name to
    one of that option's choices. *)
Theorem C8_context_values_are_choices_for_distinct_names
    (options : list TemplateOption) (selections : dict (list string))
    (base_context : option (gmap string object)) :
  distinct_names options →
  (∀ o, o ∈ options → constructed o) →
  valid_selections options selections →
  ∃ contexts,
    generate_combinations options selections base_context = inr contexts
    ∧ ∀ ctx o, ctx ∈ contexts → o ∈ options →
        ∃ v, ctx !! name o = Some (Str v) ∧ v ∈ choices o.
Proof.
  intros Hnd Hcons Hvalid.
  unfold generate_combinations.
  rewrite (valid_selections_validate options selections Hnd Hvalid). cbn.
  destruct (varying_options selections options) as [|k ks] eqn:Hnames.
  - eexists. split; [done|].
    intros ctx o ->%list_elem_of_singleton Ho.
    exists (default o). split; [|by apply constructed_default_in_choices, Hcons].
    by rewrite all_defaults_merge, lookup_merge, defaults_of_lookup.
  - eexists. split.
    { apply mapM_inr. intros value_tuple Hin. by apply combo_context_inr. }
    intros ctx o (value_tuple & -> & Hin)%list_elem_of_fmap Ho.
    rewrite lookup_merge, fixed_defaults_lookup by done.
    destruct (is_varying selections o) eqn:Hv.
    + destruct (assignments_lookup selections options value_tuple o Ho Hv Hin)
        as (v & values & Hlookup & Hget & Hvin).
      exists v. rewrite lookup_merge, Hlookup. split; [done|].
      destruct (Hvalid (name o) values) as (o' & Ho' & Hname & Hchoices).
      { by apply dict_get_Some. }
      rewrite (distinct_names_inj options o o') by done. by apply Hchoices.
    + exists (default o). split; [done|].
      by apply constructed_default_in_choices, Hcons.
Qed.

Lemma C8_witness :
  ∃ contexts,
    generate_combinations db_cache_options select_both_dbs None = inr contexts
    ∧ ∀ ctx o, ctx ∈ contexts → o ∈ db_cache_options →
        ∃ v, ctx !! name o = Some (Str v) ∧ v ∈ choices o.
Proof.
  apply (C8_context_values_are_choices_for_distinct_names
           db_cache_options select_both_dbs None).
  - unfold distinct_names. cbn. repeat constructor; set_solver.
  - intros o [->|[->|[]%elem_of_nil]%elem_of_cons]%elem_of_cons; reflexivity.
  - intros k values [[= -> ->]|[]%elem_of_nil]%elem_of_cons.
    exists db_option. split; [left|]. split; [done|]. by intros v Hv.
Defined.

(* ===================================================================== *)
(** * The plugin manager                                                   *)
(* ===================================================================== *)

Section Traced.
Context {A B : Type}.

Lemma traced_bind_inr (cs : list HookCall) (x : A) (f : A → traced B) :
  (cs, inr x) ≫= f = (cs ++ (f x).1, (f x).2).
Proof. unfold mbind, traced_bind. by destruct (f x). Qed.

Lemma traced_bind_inl (cs : list HookCall) (e : Exception) (f : A → traced B) :
  (cs, inl e) ≫= f = (cs, inl e).
Proof. done. Qed.

Lemma outcome_bind_inr (m : traced A) (f : A → traced B) x :
  outcome m = inr x → outcome (m ≫= f) = outcome (f x).
Proof.
  destruct m as [cs r]. intros Hr. cbn in Hr. subst r.
  by rewrite traced_bind_inr.
Qed.

Lemma outcome_bind_inl (m : traced A) (f : A → traced B) e :
  outcome m = inl e → outcome (m ≫= f) = inl e.
Proof. destruct m as [cs r]. intros Hr. cbn in Hr. by subst r. Qed.

Lemma zip_strict_raises (xs : list A) (ys : list B) e :
  zip_strict xs ys = inl e → e = ZipLengthMismatch.
Proof.
  destruct (decide (length xs = length ys)) as [Hlen|Hlen].
  - by rewrite zip_strict_inr.
  - rewrite zip_strict_inl by done. congruence.
Qed.
End Traced.

Section HookCalls.
Context {R : Type}.
Implicit Types (hook : nat → HookCall) (impl : Plugin → result R)
  (impls : list (nat * Plugin)).

(** When every implementation returns, each is called once, in order,
    and the results are collected. *)
Lemma call_impls_inr hook impl impls rs :
  Forall2 (λ ip r, impl ip.2 = inr r) impls rs →
  call_impls hook impl impls = (hook <$> impls.*1, inr rs).
Proof.
  induction 1 as [|[i p] r impls rs Hr _ IH]; [done|].
  cbn in Hr. cbn [call_impls]. rewrite Hr, traced_bind_inr, IH.
  rewrite traced_bind_inr. cbn. by rewrite app_nil_r.
Qed.

(** When some implementation raises, the hook call raises what one of the
    implementations raised. *)
Lemma call_impls_inl hook impl impls p e :
  p ∈ impls.*2 → impl p = inl e →
  ∃ e' q, q ∈ impls.*2 ∧ impl q = inl e'
          ∧ outcome (call_impls hook impl impls) = inl e'.
Proof.
  induction impls as [|[i q] impls IH]; [by intros ?%elem_of_nil|].
  intros Hp He. cbn [call_impls].
  destruct (impl q) as [e'|r] eqn:Hq.
  - exists e', q. split; [left|]. done.
  - cbn in Hp. apply elem_of_cons in Hp as [->|Hp]; [congruence|].
    destruct (IH Hp He) as (e' & q' & Hq' & Hraise & Hout).
    exists e', q'. split; [by right|]. split; [done|].
    rewrite traced_bind_inr. cbn.
    destruct (call_impls hook impl impls) as [cs [e''|rs]]; cbn in *; congruence.
Qed.
End HookCalls.

Section CallOrder.
Implicit Types (self : PluginManager).

Lemma call_order_plugins self : (call_order self).*2 = reverse (plugins self).
Proof.
  unfold call_order. rewrite fmap_reverse, fmap_imap. f_equal.
  rewrite (imap_ext _ (const id)) by done. by rewrite imap_const, list_fmap_id.
Qed.

Lemma call_order_indices self :
  (call_order self).*1 = reverse (seq 0 (plugin_count self)).
Proof.
  unfold call_order, plugin_count. rewrite fmap_reverse, fmap_imap. f_equal.
  rewrite (imap_ext _ (λ j _, id j)) by done.
  by rewrite imap_seq_0, list_fmap_id.
Qed.

(** A hook whose implementations cannot raise. *)
Lemma hook_call_total {R} hook (f : Plugin → R) self :
  hook_call hook (λ p, inr (f p)) self
  = (hook <$> reverse (seq 0 (plugin_count self)),
     inr (f <$> reverse (plugins self))).
Proof.
  unfold hook_call.
  rewrite (call_impls_inr _ _ _ (f <$> (call_order self).*2)).
  - by rewrite call_order_indices, call_order_plugins.
  - rewrite <- list_fmap_compose. apply Forall2_fmap_r, Forall_Forall2_diag.
    by apply Forall_true.
Qed.

Lemma hook_call_test_project self project_info verdicts :
  verdicts_of project_info (reverse (plugins self)) verdicts →
  hook_call Call_test_project (λ p, test_project p project_info) self
  = (Call_test_project <$> reverse (seq 0 (plugin_count self)), inr verdicts).
Proof.
  intros Hv. unfold hook_call. rewrite (call_impls_inr _ _ _ verdicts).
  - by rewrite call_order_indices.
  - rewrite <- call_order_plugins in Hv. by apply Forall2_fmap_l in Hv.
Qed.

Lemma get_taster_names_eq self :
  get_taster_names self
  = (Call_get_taster_name <$> reverse (seq 0 (plugin_count self)),
     inr (filter (λ name, name ≠ EmptyString) (get_taster_name <$> reverse (plugins self)))).
Proof.
  unfold get_taster_names. rewrite hook_call_total, traced_bind_inr. cbn.
  by rewrite app_nil_r.
Qed.
End CallOrder.

Section Dispatch.
Implicit Types (self : PluginManager) (project_info : ProjectInfo)
  (ps : list Plugin) (verdicts : list TasterResult).

Lemma filter_names_nonempty ps :
  Forall (λ p, get_taster_name p ≠ EmptyString) ps →
  filter (λ name, name ≠ EmptyString) (get_taster_name <$> ps) = get_taster_name <$> ps.
Proof.
  induction 1 as [|p ps Hp _ IH]; [done|].
  rewrite fmap_cons, filter_cons_True by done. by rewrite IH.
Qed.

Lemma get_taster_names_nonempty self :
  names_nonempty self →
  get_taster_names self
  = (Call_get_taster_name <$> reverse (seq 0 (plugin_count self)),
     inr (get_taster_name <$> reverse (plugins self))).
Proof.
  intros Hne. rewrite get_taster_names_eq, filter_names_nonempty; [done|].
  by apply Forall_reverse.
Qed.

Lemma applicable_names {A} (f : Plugin → A) (g : Plugin → bool) ps :
  (filter (λ p, p.2 = true) (zip (f <$> ps) (g <$> ps))).*1
  = f <$> filter (λ p, g p = true) ps.
Proof.
  induction ps as [|p ps IH]; [done|]. cbn [fmap list_fmap zip zip_with].
  destruct (g p) eqn:Hg.
  - rewrite !filter_cons_True by done. cbn. by rewrite <- IH.
  - rewrite !filter_cons_False by (cbn; congruence). done.
Qed.

(** Keeping the (name, result) pairs that pass [Q] keeps the results of the
    validators that pass [P], when the two tests agree on the validators. *)
Lemma filter_results_by_name {A} (rel : Plugin → TasterResult → Prop)
    (f : Plugin → A) (Q : A * TasterResult → Prop) (P : Plugin → Prop)
    `{∀ x, Decision (Q x), ∀ p, Decision (P p)} ps verdicts :
  Forall2 rel ps verdicts →
  (∀ p v, p ∈ ps → Q (f p, v) ↔ P p) →
  Forall2 rel (filter P ps) (filter Q (zip (f <$> ps) verdicts)).*2.
Proof.
  induction 1 as [|p v ps verdicts Hpv _ IH]; intros Hagree; [constructor|].
  cbn [fmap list_fmap zip zip_with].
  assert (Forall2 rel (filter P ps) (filter Q (zip (f <$> ps) verdicts)).*2) as IH'.
  { apply IH. intros q w Hq. apply Hagree. by right. }
  destruct (decide (P p)) as [HP|HP].
  - rewrite !filter_cons_True; [by constructor|apply Hagree; [left|done]|done].
  - rewrite !filter_cons_False; [done|rewrite Hagree; [done|left]|done].
Qed.

Lemma get_applicable_tasters_raises self ctx e :
  outcome (get_applicable_tasters self ctx) = inl e → e = ZipLengthMismatch.
Proof.
  unfold get_applicable_tasters.
  rewrite get_taster_names_eq, traced_bind_inr, hook_call_total, traced_bind_inr.
  unfold lift, outcome. cbn.
  destruct (zip_strict _ _) as [e'|pairs] eqn:Hzip; cbn; [|done].
  intros [= <-]. by eapply zip_strict_raises.
Qed.

Lemma get_applicable_tasters_eq self ctx :
  names_nonempty self →
  get_applicable_tasters self ctx
  = (let indices := reverse (seq 0 (plugin_count self)) in
     (Call_get_taster_name <$> indices) ++ (Call_can_handle <$> indices),
     inr (get_taster_name
            <$> filter (λ p, can_handle p ctx = true) (reverse (plugins self)))).
Proof.
  intros Hne. unfold get_applicable_tasters.
  rewrite get_taster_names_nonempty, traced_bind_inr by done.
  rewrite hook_call_total, traced_bind_inr.
  unfold lift. rewrite zip_strict_inr by (by rewrite !length_fmap).
  rewrite traced_bind_inr. cbn. by rewrite !app_nil_r, applicable_names.
Qed.

Lemma run_tasters_names_eq self project_info verdicts names :
  names_nonempty self →
  verdicts_of project_info (reverse (plugins self)) verdicts →
  run_tasters self project_info (Some names)
  = (let indices := reverse (seq 0 (plugin_count self)) in
     (Call_get_taster_name <$> indices) ++ (Call_test_project <$> indices),
     inr (filter (λ pr, pr.1 ∈ names)
            (zip (get_taster_name <$> reverse (plugins self)) verdicts)).*2).
Proof.
  intros Hne Hv. unfold run_tasters.
  change (mret names : traced (list string)) with (([], inr names) : traced (list string)).
  rewrite traced_bind_inr.
  rewrite get_taster_names_nonempty, traced_bind_inr by done.
  rewrite (hook_call_test_project _ _ verdicts), traced_bind_inr by done.
  unfold lift. rewrite zip_strict_inr.
  - rewrite traced_bind_inr. cbn. by rewrite !app_nil_r.
  - apply Forall2_length in Hv. by rewrite length_fmap.
Qed.

Lemma run_tasters_default self project_info :
  run_tasters self project_info None
  = get_applicable_tasters self (taster_context project_info)
      ≫= λ names, run_tasters self project_info (Some names).
Proof.
  unfold run_tasters.
  destruct (get_applicable_tasters self (taster_context project_info))
    as [cs [e|names]]; [done|].
  rewrite !traced_bind_inr.
  change (mret names : traced (list string)) with (([], inr names) : traced (list string)).
  by rewrite traced_bind_inr.
Qed.

Lemma filter_test_project_calls (indices : list nat) :
  filter is_test_project_call (Call_test_project <$> indices)
  = Call_test_project <$> indices.
Proof.
  induction indices as [|i indices IH]; [done|].
  rewrite fmap_cons, filter_cons_True by done. by rewrite IH.
Qed.

Lemma filter_other_calls (hook : nat → HookCall) (indices : list nat) :
  (∀ i, ¬ is_test_project_call (hook i)) →
  filter is_test_project_call (hook <$> indices) = [].
Proof.
  intros Hhook. induction indices as [|i indices IH]; [done|].
  rewrite fmap_cons, filter_cons_False by apply Hhook. done.
Qed.
End Dispatch.

(* ===================================================================== *)
(** * Claims about the dispatcher                                          *)
(* ===================================================================== *)

(** C1 (counterexample).  A registry of a passing validator and one whose
    [test_project] raises: [run_tasters] raises that exception; no verdict
    is returned, neither an error verdict for the raising validator nor the
    verdict of the passing one. *)
Lemma C1_raising_taster_aborts_run :
  good_taster ∈ plugins good_and_raising
  ∧ test_project raising_taster a_project = inl (Raised "RuntimeError: boom")
  ∧ outcome (run_tasters good_and_raising a_project None)
    = inl (Raised "RuntimeError: boom")
  ∧ ∀ verdicts, outcome (run_tasters good_and_raising a_project None) ≠ inr verdicts.
Proof.
  split; [left|]. split; [reflexivity|]. split; [reflexivity|].
  intros verdicts. vm_compute. discriminate.
Qed.

Section Names.
Lemma NoDup_fmap_elem_inj {A B} (f : A → B) (l : list A) x y :
  NoDup (f <$> l) → x ∈ l → y ∈ l → f x = f y → x = y.
Proof.
  induction l as [|z l IH]; intros Hnd Hx Hy Heq.
  - by apply elem_of_nil in Hx.
  - rewrite fmap_cons in Hnd. apply NoDup_cons in Hnd as [Hfresh Hnd].
    apply elem_of_cons in Hx as [->|Hx]; apply elem_of_cons in Hy as [->|Hy].
    + done.
    + destruct Hfresh. rewrite Heq. by apply list_elem_of_fmap_2.
    + destruct Hfresh. rewrite <- Heq. by apply list_elem_of_fmap_2.
    + by apply IH.
Qed.

(** With distinct names, a validator's name is among the applicable names
    exactly when the validator is applicable. *)
Lemma applicable_name_iff (self : PluginManager) ctx p :
  names_distinct self → p ∈ reverse (plugins self) →
  get_taster_name p
    ∈ get_taster_name <$> filter (λ p, can_handle p ctx = true) (reverse (plugins self))
  ↔ can_handle p ctx = true.
Proof.
  intros Hnd Hp. split.
  - intros (q & Hname & [Hcan Hq]%list_elem_of_filter)%list_elem_of_fmap.
    rewrite elem_of_reverse in Hp, Hq.
    by rewrite (NoDup_fmap_elem_inj get_taster_name (plugins self) p q).
  - intros Hcan. apply list_elem_of_fmap_2, list_elem_of_filter. done.
Qed.
End Names.

(** C3 (counterexample).  Two registered validators declare the name "lint"
    and only one of them can handle the project: [run_tasters] without names
    returns the verdicts of both. *)
Lemma C3_verdict_of_inapplicable_validator_returned :
  can_handle other_lint_taster (taster_context a_project) = false
  ∧ test_project other_lint_taster a_project = inr (verdict "lint" "3 warnings" FAILURE)
  ∧ outcome (run_tasters two_lints a_project None)
    = inr [verdict "lint" "3 warnings" FAILURE; verdict "lint" "clean" SUCCESS].
Proof. split; [reflexivity|]. split; reflexivity. Qed.

(** C3 (amended).  For a registry whose validators declare pairwise distinct,
    non-empty names and whose [test_project] calls all return a verdict,
    [run_tasters] without names returns exactly the verdicts of the
    validators whose [can_handle] is true on the project's taster context, in
    the order the hooks are called (the validator registered last first);
    [test_project] is called once on every registered validator, and the
    results are filtered afterwards. *)
Theorem C3_default_run_returns_applicable_verdicts
    (self : PluginManager) (project_info : ProjectInfo)
    (all_verdicts : list TasterResult) :
  names_distinct self →
  names_nonempty self →
  verdicts_of project_info (plugins self) all_verdicts →
  ∃ verdicts,
    outcome (run_tasters self project_info None) = inr verdicts
    ∧ verdicts_of project_info
        (filter (λ p, can_handle p (taster_context project_info) = true)
                (reverse (plugins self)))
        verdicts
    ∧ filter is_test_project_call (calls (run_tasters self project_info None))
      = Call_test_project <$> reverse (seq 0 (plugin_count self)).
Proof.
  intros Hnd Hne Hall. apply Forall2_reverse in Hall.
  rewrite run_tasters_default, get_applicable_tasters_eq, traced_bind_inr by done.
  rewrite (run_tasters_names_eq _ _ (reverse all_verdicts)) by done.
  eexists. split; [reflexivity|]. split.
  - apply filter_results_by_name; [done|].
    intros p v Hp. by apply applicable_name_iff.
  - unfold calls. cbn [fst]. rewrite !filter_app, filter_test_project_calls.
    rewrite !filter_other_calls by (intros i; cbn; tauto). done.
Qed.

Lemma C3_witness :
  ∃ verdicts,
    outcome (run_tasters docker_and_heroku a_project None) = inr verdicts
    ∧ verdicts_of a_project
        (filter (λ p, can_handle p (taster_context a_project) = true)
                (reverse (plugins docker_and_heroku)))
        verdicts
    ∧ filter is_test_project_call (calls (run_tasters docker_and_heroku a_project None))
      = Call_test_project <$> reverse (seq 0 (plugin_count docker_and_heroku)).
Proof.
  apply (C3_default_run_returns_applicable_verdicts docker_and_heroku a_project
           [verdict "docker" "image builds" SUCCESS; verdict "heroku" "no Procfile" FAILURE]).
  - unfold names_distinct. cbn. repeat constructor; set_solver.
  - repeat constructor; discriminate.
  - repeat constructor.
Defined.

(** C10 (counterexample).  Two validators that declare the same, empty, name:
    [run_tasters] with the singleton list of that name raises the
    [ValueError] of the strict zip and returns no verdict. *)
Lemma C10_shared_empty_name_raises :
  get_taster_name unnamed_taster = get_taster_name other_unnamed_taster
  ∧ plugins two_unnamed = [unnamed_taster; other_unnamed_taster]
  ∧ outcome (run_tasters two_unnamed a_project (Some [get_taster_name unnamed_taster]))
    = inl ZipLengthMismatch.
Proof. split; [reflexivity|]. split; reflexivity. Qed.

(** C10 (amended).  In a registry whose validators all declare non-empty
    names and whose [test_project] calls all return a verdict, when two
    registered validators declare the same name, [run_tasters] with the
    singleton list of that name returns the verdicts of all validators of
    that name, those of both validators among them: the filter is by name,
    not by validator. *)
Theorem C10_same_name_validators_selected_together
    (self : PluginManager) (project_info : ProjectInfo)
    (l1 l2 l3 : list Plugin) (p1 p2 : Plugin) (shared : string)
    (all_verdicts : list TasterResult) :
  plugins self = l1 ++ p1 :: l2 ++ p2 :: l3 →
  get_taster_name p1 = shared →
  get_taster_name p2 = shared →
  names_nonempty self →
  verdicts_of project_info (plugins self) all_verdicts →
  ∃ verdicts v1 v2,
    outcome (run_tasters self project_info (Some [shared])) = inr verdicts
    ∧ test_project p1 project_info = inr v1
    ∧ test_project p2 project_info = inr v2
    ∧ [v2; v1] `sublist_of` verdicts
    ∧ verdicts_of project_info
        (filter (λ p, get_taster_name p = shared) (reverse (plugins self)))
        verdicts.
Proof.
  intros Hplugins Hn1 Hn2 Hne Hall. apply Forall2_reverse in Hall.
  rewrite (run_tasters_names_eq _ _ (reverse all_verdicts)) by done.
  unfold outcome. cbn [snd].
  set (verdicts := (filter _ _).*2).
  assert (verdicts_of project_info
            (filter (λ p, get_taster_name p = shared) (reverse (plugins self)))
            verdicts) as Hv.
  { apply filter_results_by_name; [done|].
    intros p v _. apply list_elem_of_singleton. }
  pose proof Hv as Hsplit. unfold verdicts_of in Hsplit.
  rewrite Hplugins in Hsplit.
  rewrite reverse_app, reverse_cons, reverse_app, reverse_cons in Hsplit.
  rewrite <- !app_assoc, !filter_app in Hsplit.
  rewrite !(filter_cons_True _ p1), !(filter_cons_True _ p2) in Hsplit by done.
  rewrite !filter_nil in Hsplit.
  apply Forall2_app_inv_l in Hsplit as (a3 & rest & _ & Hsplit & Hverdicts).
  apply Forall2_cons_inv_l in Hsplit as (v2 & rest2 & Hv2 & Hsplit & ->).
  apply Forall2_app_inv_l in Hsplit as (a2 & rest3 & _ & Hsplit & ->).
  apply Forall2_cons_inv_l in Hsplit as (v1 & rest4 & Hv1 & _ & ->).
  exists verdicts, v1, v2. split; [done|]. split; [done|]. split; [done|].
  split; [|done]. rewrite Hverdicts.
  apply sublist_inserts_l, sublist_skip, sublist_inserts_l, sublist_skip,
    sublist_nil_l.
Qed.

Lemma C10_witness :
  ∃ verdicts v1 v2,
    outcome (run_tasters two_lints a_project (Some ["lint"])) = inr verdicts
    ∧ test_project lint_taster a_project = inr v1
    ∧ test_project other_lint_taster a_project = inr v2
    ∧ [v2; v1] `sublist_of` verdicts
    ∧ verdicts_of a_project
        (filter (λ p, get_taster_name p = "lint") (reverse (plugins two_lints)))
        verdicts.
Proof.
  apply (C10_same_name_validators_selected_together two_lints a_project
           [] [] [] lint_taster other_lint_taster "lint"
           [verdict "lint" "clean" SUCCESS; verdict "lint" "3 warnings" FAILURE]).
  - reflexivity.
  - reflexivity.
  - reflexivity.
  - repeat constructor; discriminate.
  - repeat constructor.
Defined.

(* ===================================================================== *)
(** * Claims about the run coordinator                                     *)
(* ===================================================================== *)

Section Aggregation.
End Aggregation.





(* ===================================================================== *)
(** * Further properties of the combination engine                         *)
(* ===================================================================== *)

Section EngineResults.
Implicit Types (options : list TemplateOption) (selections : dict (list string))
  (base_context : option (gmap string object)).

Lemma generate_combinations_inr_validate options selections base_context contexts :
  generate_combinations options selections base_context = inr contexts →
  validate_selections (build_option_map options) selections = inr ().
Proof.
  unfold generate_combinations.
  by destruct (validate_selections _ selections) as [e|[]].
Qed.

(** What [generate_combinations] returns once validation has passed. *)
Lemma generate_combinations_valid options selections base_context :
  validate_selections (build_option_map options) selections = inr () →
  generate_combinations options selections base_context
  = inr ((λ value_tuple,
            merge (merge (from_option id ∅ base_context)
                         (assignments selections options value_tuple))
                  (fixed_defaults selections options))
         <$> product (varying_values selections options)).
Proof.
  intros Hvalid. unfold generate_combinations. rewrite Hvalid. cbn.
  destruct (varying_options selections options) as [|k ks] eqn:Hnames.
  - apply fmap_nil_inv in Hnames. unfold varying_values. rewrite Hnames. cbn.
    rewrite all_defaults_merge. do 3 f_equal.
    + unfold assignments. rewrite <- varying_options_names.
      unfold varying_options. rewrite Hnames. cbn.
      symmetry. apply (left_id _ _).
    + rewrite fixed_defaults_all; [done|]. by apply varying_nil.
  - apply mapM_inr. intros value_tuple Hin. by apply combo_context_inr.
Qed.

Lemma product_of_lengths_pos (lists : list (list string)) :
  Forall (λ l, l ≠ []) lists → 0 < product_of_lengths lists.
Proof.
  induction 1 as [|l lists Hl _ IH]; cbn; [lia|].
  unfold product_of_lengths in IH. destruct l; [done|]. simpl. lia.
Qed.

Lemma varying_values_nonempty selections options :
  Forall (λ l, l ≠ []) (varying selections options).*2.
Proof.
  apply Forall_forall. intros values ([k values'] & -> & Hin)%list_elem_of_fmap.
  by apply elem_of_varying in Hin as (_ & _ & _ & _ & Hne).
Qed.

Lemma counted_entries_nonempty options selections :
  Forall (λ l, l ≠ []) (counted_entries options selections).*2.
Proof.
  apply Forall_forall. intros values ([k values'] & -> & Hin)%list_elem_of_fmap.
  unfold counted_entries in Hin. by apply list_elem_of_filter in Hin as [[_ Hne] _].
Qed.
End EngineResults.


(** X2. When an entry of the selection map names a known option and selects
    a value that is not one of its choices, [generate_combinations] raises
    and returns no context; when every entry ahead of it is valid, the error
    is "Invalid values" for that name, listing exactly the selected values
    that are no choices, in the order they were selected, and the option's
    choices. *)
Theorem X2_invalid_value_fails_listing_invalid_values
    (options : list TemplateOption) (selections before after : dict (list string))
    (k : string) (values : list string) (o : TemplateOption) (v : string)
    (base_context : option (gmap string object)) :
  selections = before ++ (k, values) :: after →
  build_option_map options !! k = Some o →
  v ∈ values → v ∉ choices o →
  (∃ e, generate_combinations options selections base_context = inl e)
  ∧ (validate_selections (build_option_map options) before = inr () →
     generate_combinations options selections base_context
     = inl (InvalidChoice k (filter (λ v, v ∉ choices o) values) (choices o))).
Proof.
  intros -> Hk Hv Hbad.
  assert (validate_selections (build_option_map options) ((k, values) :: after)
          = inl (InvalidChoice k (filter (λ v, v ∉ choices o) values) (choices o)))
    as Hentry.
  { cbn. rewrite Hk. destruct (filter _ values) as [|v' l] eqn:Hf; [|done].
    by destruct (filter_nil_not_elem_of _ _ v Hf Hbad). }
  destruct (validate_selections (build_option_map options) before) as [e|[]] eqn:Hbefore.
  - split; [|done]. exists e. apply generate_combinations_invalid.
    by rewrite validate_selections_app, Hbefore.
  - assert (generate_combinations options (before ++ (k, values) :: after) base_context
            = inl (InvalidChoice k (filter (λ v, v ∉ choices o) values) (choices o)))
      as Hgen.
    { apply generate_combinations_invalid.
      by rewrite validate_selections_app, Hbefore. }
    split; [by eexists|done].
Qed.

Lemma X2_witness :
  generate_combinations db_cache_options select_two_invalid_caches None
  = inl (InvalidChoice "cache" ["couch"; "etcd"] ["redis"; "memcached"]).
Proof.
  destruct (X2_invalid_value_fails_listing_invalid_values
              db_cache_options select_two_invalid_caches
              [("db", ["mysql"])] [] "cache" ["couch"; "redis"; "etcd"]
              cache_option "etcd" None) as [_ Hfirst].
  - reflexivity.
  - reflexivity.
  - right. right. left.
  - cbn. intros [[=]|[[=]|[]%elem_of_nil]%elem_of_cons]%elem_of_cons.
  - apply Hfirst. reflexivity.
Defined.

(** X3. [estimate_combination_count] is never zero, and a list of contexts
    returned by [generate_combinations] is never empty: there is at least one
    project to generate. *)
Theorem X3_at_least_one_combination
    (options : list TemplateOption) (selections : dict (list string))
    (base_context : option (gmap string object)) :
  0 < estimate_combination_count options selections
  ∧ ∀ contexts,
      generate_combinations options selections base_context = inr contexts →
      0 < length contexts.
Proof.
  split.
  - rewrite estimate_product.
    apply product_of_lengths_pos, counted_entries_nonempty.
  - intros contexts Hgen.
    destruct (generate_combinations_length options selections base_context)
      as (contexts' & Hgen' & Hlen).
    { by eapply generate_combinations_inr_validate. }
    rewrite Hgen in Hgen'. injection Hgen' as <-. rewrite Hlen.
    apply product_of_lengths_pos, varying_values_nonempty.
Qed.

Lemma X3_witness :
  0 < length [ ({[ "db" := Str "postgres"; "cache" := Str "redis" ]} : gmap string object);
               {[ "db" := Str "mysql"; "cache" := Str "redis" ]} ].
Proof.
  apply (X3_at_least_one_combination db_cache_options select_both_dbs None).
  vm_compute. reflexivity.
Defined.

Section ContextKeys.
Implicit Types (options : list TemplateOption) (selections : dict (list string)).

(** A mapping built from (name, value) pairs holds string values only, each
    the value of one of the pairs of its key. *)
Lemma mapping_lookup_Some pairs k x :
  mapping pairs !! k = Some x → ∃ v, x = Str v ∧ (k, v) ∈ pairs.
Proof.
  intros Hx. destruct (decide (k ∈ pairs.*1)) as [Hk|Hk].
  - destruct (mapping_lookup_elem_of pairs k Hk) as (v & Hv & Hin).
    exists v. split; [congruence|done].
  - rewrite mapping_lookup_None in Hx by done. done.
Qed.

Lemma mapping_lookup_NoDup pairs k v :
  NoDup (pairs.*1) → (k, v) ∈ pairs → mapping pairs !! k = Some (Str v).
Proof.
  intros Hnd Hin.
  destruct (mapping_lookup_elem_of pairs k) as (v' & Hv' & Hin').
  { apply list_elem_of_fmap. by exists (k, v). }
  rewrite Hv'. do 2 f_equal.
  by apply (NoDup_fmap_elem_inj fst pairs (k, v') (k, v)) in Hnd as [= ->].
Qed.

Lemma varying_names_known selections options k :
  k ∈ varying_names selections options → k ∈ name <$> options.
Proof.
  rewrite <- varying_options_names.
  intros ([k' values] & -> & Hin)%list_elem_of_fmap.
  apply elem_of_varying in Hin as (o & Ho & <- & _).
  cbn. by apply list_elem_of_fmap_2.
Qed.

Lemma assignments_lookup_None selections options value_tuple k :
  k ∉ name <$> options →
  assignments selections options value_tuple !! k = None.
Proof.
  intros Hk. apply mapping_lookup_None.
  intros ([k' v] & -> & Hin%elem_of_zip_l)%list_elem_of_fmap.
  by apply Hk, (varying_names_known selections).
Qed.

Lemma fixed_defaults_lookup_None selections options k :
  k ∉ name <$> options → fixed_defaults selections options !! k = None.
Proof.
  intros Hk. apply defaults_of_lookup_None.
  intros (o & -> & [_ Ho]%list_elem_of_filter)%list_elem_of_fmap.
  by apply Hk, list_elem_of_fmap_2.
Qed.

Lemma fixed_defaults_lookup_fixed selections options o :
  o ∈ options → is_varying selections o = false →
  ∃ v, fixed_defaults selections options !! name o = Some (Str v).
Proof.
  intros Ho Hv. unfold fixed_defaults, defaults_of.
  destruct (mapping_lookup_elem_of
              ((λ o, (name o, default o))
                 <$> filter (λ o, ¬ is_varying selections o) options) (name o))
    as (v & Hlook & _).
  - rewrite <- list_fmap_compose. apply (list_elem_of_fmap_2 name).
    apply list_elem_of_filter. split; [|done]. rewrite Hv. cbn. tauto.
  - by exists v.
Qed.
End ContextKeys.

(** X4. Every context returned by [generate_combinations] holds a string
    under the name of every option, and under every other key exactly what
    the base context holds there (nothing, when the base context has no such
    key). *)
Theorem X4_contexts_extend_base_context
    (options : list TemplateOption) (selections : dict (list string))
    (base_context : option (gmap string object))
    (contexts : list (gmap string object)) (ctx : gmap string object) :
  generate_combinations options selections base_context = inr contexts →
  ctx ∈ contexts →
  (∀ o, o ∈ options → ∃ v, ctx !! name o = Some (Str v))
  ∧ (∀ k, k ∉ name <$> options → ctx !! k = from_option id ∅ base_context !! k).
Proof.
  intros Hgen Hctx.
  rewrite generate_combinations_valid in Hgen
    by (by eapply generate_combinations_inr_validate).
  injection Hgen as <-.
  apply list_elem_of_fmap in Hctx as (value_tuple & -> & Hin). split.
  - intros o Ho. rewrite lookup_merge.
    destruct (fixed_defaults selections options !! name o) as [x|] eqn:Hfixed.
    + apply mapping_lookup_Some in Hfixed as (v & -> & _). by exists v.
    + destruct (is_varying selections o) eqn:Hv.
      * destruct (assignments_lookup selections options value_tuple o Ho Hv Hin)
          as (v & values & Hlook & _).
        exists v. by rewrite lookup_merge, Hlook.
      * destruct (fixed_defaults_lookup_fixed selections options o Ho Hv) as [v Hlook].
        congruence.
  - intros k Hk.
    by rewrite !lookup_merge, fixed_defaults_lookup_None, assignments_lookup_None.
Qed.

Lemma X4_witness :
  (∀ o, o ∈ db_cache_options →
     ∃ v, ({[ "project_name" := Str "myproject"; "db" := Str "mysql";
              "cache" := Str "redis" ]} : gmap string object) !! name o = Some (Str v))
  ∧ (∀ k, k ∉ name <$> db_cache_options →
       ({[ "project_name" := Str "myproject"; "db" := Str "mysql";
           "cache" := Str "redis" ]} : gmap string object) !! k
       = from_option id ∅ (Some a_base_context) !! k).
Proof.
  apply (X4_contexts_extend_base_context db_cache_options select_both_dbs
           (Some a_base_context)
           [ {[ "project_name" := Str "myproject"; "db" := Str "postgres";
                "cache" := Str "redis" ]};
             {[ "project_name" := Str "myproject"; "db" := Str "mysql";
                "cache" := Str "redis" ]} ]).
  - vm_compute. reflexivity.
  - right. left.
Defined.

Section SelectionOrder.
Implicit Types (options : list TemplateOption) (selections : dict (list string)).

Lemma dict_wf_Permutation {V} (d d' : dict V) : d ≡ₚ d' → dict_wf d → dict_wf d'.
Proof. unfold dict_wf. by intros ->. Qed.

Lemma dict_get_Permutation {V} (d d' : dict V) k :
  dict_wf d → d ≡ₚ d' → dict_get d k = dict_get d' k.
Proof.
  intros Hwf Hperm. pose proof (dict_wf_Permutation d d' Hperm Hwf) as Hwf'.
  destruct (dict_get d k) as [v|] eqn:Hget.
  - symmetry. apply dict_get_elem_of; [done|].
    rewrite <- Hperm. by apply dict_get_Some.
  - symmetry. apply dict_get_None. rewrite <- Hperm. by apply dict_get_None.
Qed.

(** The expansion reads the selection map through lookups only. *)
Lemma varying_ext selections selections' options :
  (∀ k, dict_get selections k = dict_get selections' k) →
  varying selections options = varying selections' options.
Proof.
  intros Hext. induction options as [|o options IH]; [done|].
  cbn. unfold is_varying. by rewrite Hext, IH.
Qed.

Lemma add_fixed_defaults_ext selections selections' options ctx :
  (∀ k, dict_get selections k = dict_get selections' k) →
  add_fixed_defaults selections options ctx
  = add_fixed_defaults selections' options ctx.
Proof.
  intros Hext. unfold add_fixed_defaults. revert ctx.
  induction options as [|o options IH]; intros ctx; [done|].
  cbn. unfold is_fixed at 2 4. by rewrite Hext, IH.
Qed.

Lemma mapM_result_ext {A B} (f g : A → result B) (l : list A) :
  (∀ x, f x = g x) → mapM f l = mapM g l.
Proof.
  intros Hfg. induction l as [|x l IH]; [done|]. cbn. by rewrite Hfg, IH.
Qed.

Lemma generate_combinations_ext options selections selections' base_context :
  (∀ k, dict_get selections k = dict_get selections' k) →
  validate_selections (build_option_map options) selections = inr () →
  validate_selections (build_option_map options) selections' = inr () →
  generate_combinations options selections' base_context
  = generate_combinations options selections base_context.
Proof.
  intros Hext Hvalid Hvalid'. unfold generate_combinations.
  rewrite Hvalid, Hvalid'. cbn.
  unfold varying_options, varying_values.
  rewrite (varying_ext selections selections') by done.
  destruct (varying selections' options).*1; [done|].
  apply mapM_result_ext. intros value_tuple. unfold combo_context, varying_options.
  rewrite (varying_ext selections selections') by done.
  destruct (zip_strict _ value_tuple); [done|]. cbn.
  by rewrite (add_fixed_defaults_ext selections selections').
Qed.
End SelectionOrder.

(** X5. The order of the entries of the selection map does not matter to a
    successful expansion: when [generate_combinations] returns contexts, it
    returns the same contexts, in the same order, for the same entries in
    any other order. *)
Theorem X5_expansion_independent_of_selection_order
    (options : list TemplateOption) (selections selections' : dict (list string))
    (base_context : option (gmap string object))
    (contexts : list (gmap string object)) :
  dict_wf selections →
  selections ≡ₚ selections' →
  generate_combinations options selections base_context = inr contexts →
  generate_combinations options selections' base_context = inr contexts.
Proof.
  intros Hwf Hperm Hgen.
  pose proof (generate_combinations_inr_validate _ _ _ _ Hgen) as Hvalid.
  rewrite <- Hgen. apply generate_combinations_ext; [|done|].
  - intros k. by apply dict_get_Permutation.
  - apply validate_selections_inr. intros k values Hin.
    rewrite <- Hperm in Hin.
    by apply (proj1 (validate_selections_inr _ selections) Hvalid).
Qed.

Lemma X5_witness :
  generate_combinations db_cache_options select_caches_and_dbs None
  = inr [ {[ "db" := Str "postgres"; "cache" := Str "redis" ]};
          {[ "db" := Str "postgres"; "cache" := Str "memcached" ]};
          {[ "db" := Str "mysql"; "cache" := Str "redis" ]};
          {[ "db" := Str "mysql"; "cache" := Str "memcached" ]} ].
Proof.
  apply (X5_expansion_independent_of_selection_order
           db_cache_options select_dbs_and_caches select_caches_and_dbs None).
  - unfold dict_wf. cbn. repeat constructor; set_solver.
  - apply perm_swap.
  - vm_compute. reflexivity.
Defined.

(** X6. [estimate_combination_count] does not depend on the order of the
    entries of the selection map. *)
Theorem X6_estimate_independent_of_selection_order
    (options : list TemplateOption) (selections selections' : dict (list string)) :
  selections ≡ₚ selections' →
  estimate_combination_count options selections
  = estimate_combination_count options selections'.
Proof.
  intros Hperm. rewrite !estimate_product.
  apply product_of_lengths_Permutation, fmap_Permutation.
  unfold counted_entries. by rewrite Hperm.
Qed.

Lemma X6_witness :
  estimate_combination_count db_cache_options select_dbs_and_caches
  = estimate_combination_count db_cache_options select_caches_and_dbs.
Proof.
  apply (X6_estimate_independent_of_selection_order
           db_cache_options select_dbs_and_caches select_caches_and_dbs).
  apply perm_swap.
Defined.

Section Coverage.
Implicit Types (options : list TemplateOption) (selections : dict (list string)).

Lemma cartesian_inhabited (pools : list (list string)) :
  Forall (λ l, l ≠ []) pools → ∃ t, t ∈ cartesian pools.
Proof.
  induction 1 as [|pool pools Hpool _ [t Ht]].
  - exists []. left.
  - destruct pool as [|y pool]; [done|]. exists (y :: t).
    apply elem_of_cartesian. constructor; [left|]. by apply elem_of_cartesian.
Qed.

(** Any value of any pool occurs, at the pool's position, in some tuple of
    the product. *)
Lemma cartesian_covers (l : list (string * list string)) k pool v :
  Forall (λ l, l ≠ []) (l.*2) → (k, pool) ∈ l → v ∈ pool →
  ∃ t, t ∈ cartesian (l.*2) ∧ (k, v) ∈ zip (l.*1) t.
Proof.
  induction l as [|[k' pool'] l IH]; [by intros _ ?%elem_of_nil|].
  rewrite !fmap_cons. cbn [fst snd].
  intros [Hne Hrest]%Forall_cons [[= <- <-]|Hin]%elem_of_cons Hv.
  - destruct (cartesian_inhabited _ Hrest) as [t Ht]. exists (v :: t). split.
    + apply elem_of_cartesian. constructor; [done|]. by apply elem_of_cartesian.
    + cbn. left.
  - destruct (IH Hrest Hin Hv) as (t & Ht & Hzip).
    destruct pool' as [|y pool']; [done|]. exists (y :: t). split.
    + apply elem_of_cartesian. constructor; [left|]. by apply elem_of_cartesian.
    + cbn. by right.
Qed.
End Coverage.

(** X7. For options with pairwise distinct names, every value selected for
    an option is used: each of them is the value of that option's name in at
    least one of the contexts [generate_combinations] returns. *)
Theorem X7_every_selected_value_is_generated
    (options : list TemplateOption) (selections : dict (list string))
    (base_context : option (gmap string object))
    (contexts : list (gmap string object))
    (o : TemplateOption) (values : list string) (v : string) :
  distinct_names options →
  generate_combinations options selections base_context = inr contexts →
  o ∈ options →
  dict_get selections (name o) = Some values →
  v ∈ values →
  ∃ ctx, ctx ∈ contexts ∧ ctx !! name o = Some (Str v).
Proof.
  intros Hnd Hgen Ho Hget Hv.
  rewrite generate_combinations_valid in Hgen
    by (by eapply generate_combinations_inr_validate).
  injection Hgen as <-.
  assert (values ≠ []) as Hne by (intros ->; by apply elem_of_nil in Hv).
  assert (is_varying selections o = true) as Hvarying.
  { apply is_varying_varies. by exists values. }
  destruct (cartesian_covers (varying selections options) (name o) values v)
    as (t & Ht & Hzip).
  { apply varying_values_nonempty. }
  { apply elem_of_varying. by exists o. }
  { done. }
  exists (merge (merge (from_option id ∅ base_context)
                       (assignments selections options t))
                (fixed_defaults selections options)).
  split.
  - apply list_elem_of_fmap. exists t. split; [done|].
    by rewrite product_cartesian.
  - rewrite lookup_merge, fixed_defaults_lookup, Hvarying, lookup_merge by done.
    unfold assignments. rewrite <- varying_options_names. unfold varying_options.
    rewrite (mapping_lookup_NoDup _ (name o) v); [done| |done].
    rewrite fst_zip; [by apply varying_keys_distinct|].
    apply elem_of_cartesian, Forall2_length in Ht.
    rewrite !length_fmap in *. lia.
Qed.

Lemma X7_witness :
  ∃ ctx, ctx ∈ [ ({[ "db" := Str "postgres"; "cache" := Str "redis" ]} : gmap string object);
                 {[ "db" := Str "mysql"; "cache" := Str "redis" ]} ]
         ∧ ctx !! name db_option = Some (Str "mysql").
Proof.
  apply (X7_every_selected_value_is_generated db_cache_options select_both_dbs None
           _ db_option ["postgres"; "mysql"] "mysql").
  - unfold distinct_names. cbn. repeat constructor; set_solver.
  - vm_compute. reflexivity.
  - left.
  - reflexivity.
  - right. left.
Defined.


(* ===================================================================== *)
(** * The template inspector                                               *)
(* ===================================================================== *)

Section ExtractOptions.
Variable str_of_other : json → string.
Implicit Types (context : dict json) (o : TemplateOption).

(** The constructor call of [_extract_options] never raises: the default is
    the first of the choices. *)
Lemma new_TemplateOption_first key first others :
  new_TemplateOption key (str str_of_other <$> first :: others) (str str_of_other first)
  = inr (mkTemplateOption key (str str_of_other <$> first :: others)
                          (str str_of_other first)).
Proof.
  unfold new_TemplateOption, post_init. cbn.
  rewrite decide_False by done. rewrite decide_True by left. done.
Qed.

Lemma _extract_options_cons_list key first others context :
  _extract_options str_of_other ((key, JList (first :: others)) :: context)
  = mkTemplateOption key (str str_of_other <$> first :: others) (str str_of_other first)
      :: _extract_options str_of_other context.
Proof. cbn [_extract_options]. by rewrite new_TemplateOption_first. Qed.

Lemma elem_of_extract_options context o :
  o ∈ _extract_options str_of_other context ↔
  ∃ first others, (name o, JList (first :: others)) ∈ context
    ∧ choices o = str str_of_other <$> first :: others
    ∧ default o = str str_of_other first.
Proof.
  induction context as [|[key value] context IH].
  - split; [by intros ?%elem_of_nil|]. by intros (? & ? & ?%elem_of_nil & _).
  - destruct value as [s|[|first others]|literal];
      rewrite ?_extract_options_cons_list; cbn [_extract_options];
      rewrite ?elem_of_cons, IH.
    + split.
      * intros (f & os & Hin & ?). exists f, os. split; [by right|done].
      * intros (f & os & [[=]|Hin]%elem_of_cons & ?). by exists f, os.
    + split.
      * intros (f & os & Hin & ?). exists f, os. split; [by right|done].
      * intros (f & os & [[=]|Hin]%elem_of_cons & ?). by exists f, os.
    + split.
      * intros [->|(f & os & Hin & ?)].
        -- exists first, others. split; [left|done].
        -- exists f, os. split; [by right|done].
      * intros (f & os & [[= Hname <- <-]|Hin]%elem_of_cons & Hc & Hd).
        -- left. destruct o. cbn in *. by subst.
        -- right. by exists f, os.
    + split.
      * intros (f & os & Hin & ?). exists f, os. split; [by right|done].
      * intros (f & os & [[=]|Hin]%elem_of_cons & ?). by exists f, os.
Qed.

Lemma extract_options_names context k :
  k ∈ name <$> _extract_options str_of_other context → k ∈ context.*1.
Proof.
  intros (o & -> & (f & os & Hin & _)%elem_of_extract_options)%list_elem_of_fmap.
  apply list_elem_of_fmap. by exists (name o, JList (f :: os)).
Qed.

Lemma extract_options_distinct context :
  dict_wf context → distinct_names (_extract_options str_of_other context).
Proof.
  unfold dict_wf. induction context as [|[key value] context IH]; [constructor|].
  rewrite fmap_cons. intros [Hfresh Hwf]%NoDup_cons.
  destruct value as [s|[|first others]|literal];
    rewrite ?_extract_options_cons_list; cbn [_extract_options]; try by apply IH.
  apply distinct_names_cons. split; [|by apply IH].
  intros Hk%extract_options_names. by apply Hfresh.
Qed.
End ExtractOptions.

(** X9. The options [_extract_options] returns for a parsed JSON object
    (keys unique) have pairwise distinct names. *)
Theorem X9_extracted_options_have_distinct_names
    (str_of_other : json → string) (context : dict json) :
  dict_wf context →
  distinct_names (_extract_options str_of_other context).
Proof. apply extract_options_distinct. Qed.

Lemma X9_witness :
  distinct_names (_extract_options str_of_literal a_cookiecutter_json).
Proof.
  apply (X9_extracted_options_have_distinct_names str_of_literal a_cookiecutter_json).
  unfold dict_wf. cbn. repeat constructor; set_solver.
Defined.

(** X10. For the options [_extract_options] returns for a parsed JSON object
    and a selection map that selects valid choices of known options,
    [generate_combinations] returns as many contexts as
    [estimate_combination_count] announces. *)
Theorem X10_extracted_options_expand_to_estimated_count
    (str_of_other : json → string) (context : dict json)
    (selections : dict (list string)) (base_context : option (gmap string object)) :
  dict_wf context →
  dict_wf selections →
  valid_selections (_extract_options str_of_other context) selections →
  ∃ contexts,
    generate_combinations (_extract_options str_of_other context) selections base_context
      = inr contexts
    ∧ length contexts
      = estimate_combination_count (_extract_options str_of_other context) selections.
Proof.
  intros Hctx Hwf Hvalid.
  pose proof (extract_options_distinct str_of_other context Hctx) as Hnd.
  destruct (generate_combinations_length
              (_extract_options str_of_other context) selections base_context)
    as (contexts & Hgen & Hlen); [by apply valid_selections_validate|].
  exists contexts. split; [done|].
  rewrite Hlen, estimate_product.
  apply product_of_lengths_Permutation, fmap_Permutation.
  by apply varying_counted_entries.
Qed.

Lemma X10_witness :
  ∃ contexts,
    generate_combinations (_extract_options str_of_literal a_cookiecutter_json)
                          select_both_dbs None = inr contexts
    ∧ length contexts
      = estimate_combination_count (_extract_options str_of_literal a_cookiecutter_json)
                                   select_both_dbs.
Proof.
  apply (X10_extracted_options_expand_to_estimated_count
           str_of_literal a_cookiecutter_json select_both_dbs None).
  - unfold dict_wf. cbn. repeat constructor; set_solver.
  - unfold dict_wf. cbn. apply NoDup_singleton.
  - intros k values [[= -> ->]|[]%elem_of_nil]%elem_of_cons.
    exists db_option. split; [left|]. split; [done|]. by intros v Hv.
Defined.


(* ===================================================================== *)
(** * The options screen                                                   *)
(* ===================================================================== *)

Section DictSet.
Context {V : Type}.
Implicit Types (d : dict V) (k : string) (v : V).

Lemma dict_get_set d k v k' :
  dict_get (dict_set d k v) k' = if decide (k = k') then Some v else dict_get d k'.
Proof.
  induction d as [|[k0 v0] d IH]; cbn.
  - by destruct (decide (k = k')).
  - destruct (decide (k0 = k)) as [->|Hne]; cbn.
    + by destruct (decide (k = k')).
    + rewrite IH. destruct (decide (k0 = k')) as [->|]; [|done].
      by rewrite decide_False by done.
Qed.

Lemma elem_of_dict_set d k v k' v' :
  (k', v') ∈ dict_set d k v → (k' = k ∧ v' = v) ∨ (k', v') ∈ d.
Proof.
  induction d as [|[k0 v0] d IH]; cbn.
  - intros [[= -> ->]|[]%elem_of_nil]%elem_of_cons. by left.
  - destruct (decide (k0 = k)) as [->|Hne].
    + intros [[= -> ->]|Hin]%elem_of_cons; [by left|]. right. by right.
    + intros [[= -> ->]|Hin]%elem_of_cons; [right; left|].
      destruct (IH Hin) as [?|?]; [by left|]. right. by right.
Qed.

Lemma dict_set_keys d k v k' :
  k' ∈ (dict_set d k v).*1 ↔ k' = k ∨ k' ∈ d.*1.
Proof.
  induction d as [|[k0 v0] d IH]; cbn.
  - rewrite list_elem_of_singleton. split; [by left|].
    by intros [?|?%elem_of_nil].
  - destruct (decide (k0 = k)) as [->|Hne]; cbn.
    + rewrite !elem_of_cons. naive_solver.
    + rewrite !elem_of_cons, IH. naive_solver.
Qed.

Lemma dict_set_wf d k v : dict_wf d → dict_wf (dict_set d k v).
Proof.
  unfold dict_wf. induction d as [|[k0 v0] d IH]; cbn.
  - intros _. apply NoDup_singleton.
  - intros [Hfresh Hwf]%NoDup_cons. destruct (decide (k0 = k)) as [->|Hne]; cbn.
    + by apply NoDup_cons.
    + apply NoDup_cons. split; [|by apply IH].
      rewrite dict_set_keys. naive_solver.
Qed.

Lemma dict_set_not_nil d k v : dict_set d k v ≠ [].
Proof. destruct d as [|[k0 v0] d]; cbn; [done|]. by destruct (decide (k0 = k)). Qed.
End DictSet.

Section Screen.
Implicit Types (options : list TemplateOption) (groups : list OptionGroup)
  (selections : dict (list string)).

Lemma _get_selections_snoc groups g :
  _get_selections (groups ++ [g])
  = match selected_values_of g with
    | [] => _get_selections groups
    | _ :: _ => dict_set (_get_selections groups) (name (group_option g))
                         (selected_values_of g)
    end.
Proof. unfold _get_selections. by rewrite foldl_snoc. Qed.

Lemma _get_selections_wf groups : dict_wf (_get_selections groups).
Proof.
  induction groups as [|g groups IH] using rev_ind; [constructor|].
  rewrite _get_selections_snoc. destruct (selected_values_of g); [done|].
  by apply dict_set_wf.
Qed.

(** An entry of the selections is the non-empty list of checked labels of a
    group of that name. *)
Lemma elem_of_get_selections groups k values :
  (k, values) ∈ _get_selections groups →
  ∃ g, g ∈ groups ∧ name (group_option g) = k
       ∧ values = selected_values_of g ∧ values ≠ [].
Proof.
  induction groups as [|g groups IH] using rev_ind; [by intros ?%elem_of_nil|].
  rewrite _get_selections_snoc.
  assert ((k, values) ∈ _get_selections groups →
          ∃ g0, g0 ∈ groups ++ [g] ∧ name (group_option g0) = k
                ∧ values = selected_values_of g0 ∧ values ≠ []) as Hold.
  { intros (g0 & ? & ?)%IH. exists g0. split; [|done]. apply elem_of_app. by left. }
  destruct (selected_values_of g) as [|v vs] eqn:Hsel; [done|].
  intros [[-> ->]|Hin]%elem_of_dict_set; [|by apply Hold].
  exists g. split; [apply elem_of_app; right; left|]. by rewrite Hsel.
Qed.

Lemma _get_selections_nil groups :
  _get_selections groups = [] ↔ ∀ g, g ∈ groups → selected_values_of g = [].
Proof.
  induction groups as [|g groups IH] using rev_ind.
  - split; [|done]. by intros _ g ?%elem_of_nil.
  - rewrite _get_selections_snoc. split.
    + destruct (selected_values_of g) as [|v vs] eqn:Hsel.
      * intros Hnil. pose proof (proj1 IH Hnil) as Hall.
        intros g' [Hg'| ->%list_elem_of_singleton]%elem_of_app; [|done].
        by apply Hall.
      * by intros ?%dict_set_not_nil.
    + intros Hall. rewrite (Hall g) by (apply elem_of_app; right; left).
      apply IH. intros g' Hg'. apply Hall, elem_of_app. by left.
Qed.

Lemma selected_values_of_nil g :
  selected_values_of g = [] ↔ ∀ c, c ∈ checkboxes g → value c = false.
Proof.
  unfold selected_values_of. split.
  - intros Hnil%fmap_nil_inv c Hc. destruct (value c) eqn:Hv; [|done].
    by destruct (filter_nil_not_elem_of _ _ c Hnil Hv).
  - intros Hall. destruct (filter _ (checkboxes g)) as [|c l] eqn:Hf; [done|].
    assert (c ∈ filter (λ c, value c = true) (checkboxes g)) as Hc by (rewrite Hf; left).
    apply list_elem_of_filter in Hc as [Hv Hc]. rewrite (Hall c Hc) in Hv. done.
Qed.

Lemma selected_values_of_labels g v :
  v ∈ selected_values_of g → v ∈ label_plain <$> checkboxes g.
Proof.
  unfold selected_values_of.
  intros (c & -> & [_ Hc]%list_elem_of_filter)%list_elem_of_fmap.
  by apply list_elem_of_fmap_2.
Qed.

Lemma use_defaults_snoc options o selections :
  use_defaults (options ++ [o]) selections
  = if is_fixed (use_defaults options selections) o
    then dict_set (use_defaults options selections) (name o) [default o]
    else use_defaults options selections.
Proof. unfold use_defaults. by rewrite foldl_snoc. Qed.

Lemma use_defaults_wf options selections :
  dict_wf selections → dict_wf (use_defaults options selections).
Proof.
  intros Hwf. induction options as [|o options IH] using rev_ind; [done|].
  rewrite use_defaults_snoc. destruct (is_fixed _ o); [|done]. by apply dict_set_wf.
Qed.

Lemma elem_of_use_defaults options selections k values :
  (k, values) ∈ use_defaults options selections →
  (k, values) ∈ selections ∨ ∃ o, o ∈ options ∧ k = name o ∧ values = [default o].
Proof.
  induction options as [|o options IH] using rev_ind; [by left|].
  rewrite use_defaults_snoc.
  assert ((k, values) ∈ use_defaults options selections →
          (k, values) ∈ selections
          ∨ ∃ o0, o0 ∈ options ++ [o] ∧ k = name o0 ∧ values = [default o0]) as Hold.
  { intros [?|(o0 & ? & ?)]%IH; [by left|]. right. exists o0.
    split; [|done]. apply elem_of_app. by left. }
  destruct (is_fixed _ o); [|done].
  intros [[-> ->]|Hin]%elem_of_dict_set; [|by apply Hold].
  right. exists o. split; [apply elem_of_app; right; left|done].
Qed.

(** After the loop every option has a non-empty selection. *)
Lemma use_defaults_varies options selections o :
  o ∈ options → varies (use_defaults options selections) o.
Proof.
  induction options as [|o' options IH] using rev_ind; [by intros ?%elem_of_nil|].
  rewrite use_defaults_snoc.
  intros [Ho| ->%list_elem_of_singleton]%elem_of_app.
  - specialize (IH Ho). destruct (is_fixed _ o'); [|done].
    destruct IH as (values & Hget & Hne). unfold varies. rewrite dict_get_set.
    destruct (decide (name o' = name o)); [by exists [default o']|by exists values].
  - destruct (is_fixed _ o') eqn:Hfixed.
    + exists [default o']. by rewrite dict_get_set, decide_True.
    + apply is_varying_varies. rewrite is_fixed_varying in Hfixed.
      by destruct (is_varying _ o').
Qed.

Lemma use_defaults_valid options groups :
  groups_of options groups →
  (∀ o, o ∈ options → constructed o) →
  valid_selections options (use_defaults options (_get_selections groups)).
Proof.
  intros [Hgroups Hlabels] Hcons k values
    [Hin|(o & Ho & -> & ->)]%elem_of_use_defaults.
  - apply elem_of_get_selections in Hin as (g & Hg & <- & -> & _).
    exists (group_option g). split; [|split; [done|]].
    + rewrite <- Hgroups. by apply list_elem_of_fmap_2.
    + intros v Hv%selected_values_of_labels.
      by rewrite (proj1 (Forall_forall _ _) Hlabels g Hg) in Hv.
  - exists o. split; [done|]. split; [done|].
    intros v ->%list_elem_of_singleton. by apply constructed_default_in_choices, Hcons.
Qed.

Lemma handle_generate_Some options groups selections :
  handle_generate options groups = Some selections →
  selections = use_defaults options (_get_selections groups).
Proof.
  unfold handle_generate. destruct (_get_selections groups); [done|].
  by intros [= <-].
Qed.

End Screen.

(** X11. [handle_generate] returns without dismissing the screen exactly
    when no checkbox is checked; the defaults are not used in that case. *)
Theorem X11_generate_ignored_iff_nothing_checked
    (options : list TemplateOption) (groups : list OptionGroup) :
  handle_generate options groups = None ↔ nothing_checked groups.
Proof.
  unfold handle_generate, nothing_checked.
  destruct (_get_selections groups) as [|entry l] eqn:Hsel.
  - split; [|done]. intros _ g c Hg Hc.
    pose proof (proj1 (_get_selections_nil groups) Hsel g Hg) as Hg_nil.
    by apply (proj1 (selected_values_of_nil g) Hg_nil).
  - split; [done|]. intros Hnone.
    assert (_get_selections groups = []) as Hnil; [|congruence].
    apply _get_selections_nil. intros g Hg. apply selected_values_of_nil.
    intros c Hc. by apply (Hnone g).
Qed.

(** X12. On a screen whose groups are those of the options and whose
    checkbox labels are the options' choices, the selections
    [handle_generate] dismisses the screen with have unique keys, name known
    options only, select choices of those options only, and give every
    option a non-empty list of values: an option with nothing checked gets
    its default. *)
Theorem X12_dismissed_selections_are_valid
    (options : list TemplateOption) (groups : list OptionGroup)
    (selections : dict (list string)) :
  groups_of options groups →
  (∀ o, o ∈ options → constructed o) →
  handle_generate options groups = Some selections →
  dict_wf selections
  ∧ valid_selections options selections
  ∧ ∀ o, o ∈ options → varies selections o.
Proof.
  intros Hgroups Hcons ->%handle_generate_Some. split; [|split].
  - apply use_defaults_wf, _get_selections_wf.
  - by apply use_defaults_valid.
  - intros o Ho. by apply use_defaults_varies.
Qed.

Lemma X12_witness :
  dict_wf [("db", ["postgres"; "mysql"]); ("cache", ["redis"])]
  ∧ valid_selections db_cache_options [("db", ["postgres"; "mysql"]); ("cache", ["redis"])]
  ∧ ∀ o, o ∈ db_cache_options →
      varies [("db", ["postgres"; "mysql"]); ("cache", ["redis"])] o.
Proof.
  apply (X12_dismissed_selections_are_valid db_cache_options groups_both_dbs_no_cache).
  - split; [reflexivity|]. repeat constructor.
  - intros o [->|[->|[]%elem_of_nil]%elem_of_cons]%elem_of_cons; reflexivity.
  - reflexivity.
Defined.

(** X13. On such a screen, for options with pairwise distinct names, the
    selections [handle_generate] dismisses the screen with are expanded by
    [generate_combinations] without error, into as many contexts as the
    count [_update_combination_count] displays. *)
Theorem X13_displayed_count_is_number_of_contexts
    (options : list TemplateOption) (groups : list OptionGroup)
    (selections : dict (list string)) (base_context : option (gmap string object)) :
  groups_of options groups →
  (∀ o, o ∈ options → constructed o) →
  distinct_names options →
  handle_generate options groups = Some selections →
  ∃ contexts,
    generate_combinations options selections base_context = inr contexts
    ∧ length contexts = _update_combination_count options groups.
Proof.
  intros Hgroups Hcons Hnd ->%handle_generate_Some.
  pose proof (use_defaults_valid options groups Hgroups Hcons) as Hvalid.
  destruct (generate_combinations_length options
              (use_defaults options (_get_selections groups)) base_context)
    as (contexts & Hgen & Hlen); [by apply valid_selections_validate|].
  exists contexts. split; [done|].
  unfold _update_combination_count. rewrite Hlen, estimate_product.
  apply product_of_lengths_Permutation, fmap_Permutation.
  apply varying_counted_entries; [done|].
  apply use_defaults_wf, _get_selections_wf.
Qed.

Lemma X13_witness :
  ∃ contexts,
    generate_combinations db_cache_options
      [("db", ["postgres"; "mysql"]); ("cache", ["redis"])] None = inr contexts
    ∧ length contexts
      = _update_combination_count db_cache_options groups_both_dbs_no_cache.
Proof.
  apply (X13_displayed_count_is_number_of_contexts
           db_cache_options groups_both_dbs_no_cache).
  - split; [reflexivity|]. repeat constructor.
  - intros o [->|[->|[]%elem_of_nil]%elem_of_cons]%elem_of_cons; reflexivity.
  - unfold distinct_names. cbn. repeat constructor; set_solver.
  - reflexivity.
Defined.


(* ===================================================================== *)
(** * Further properties of the plugin manager                             *)
(* ===================================================================== *)

Section DispatchFailures.
Implicit Types (self : PluginManager) (project_info : ProjectInfo).

Lemma call_impls_length {R} hook (impl : Plugin → result R) impls rs :
  outcome (call_impls hook impl impls) = inr rs → length rs = length impls.
Proof.
  revert rs. induction impls as [|[i p] impls IH]; intros rs.
  - cbn. by intros [= <-].
  - cbn [call_impls]. destruct (impl p) as [e|r]; [done|].
    rewrite traced_bind_inr.
    destruct (call_impls hook impl impls) as [cs [e|rs']]; [done|].
    rewrite traced_bind_inr. unfold outcome. cbn. intros [= <-].
    cbn. f_equal. by apply IH.
Qed.

Lemma call_order_length self : length (call_order self) = plugin_count self.
Proof.
  unfold plugin_count.
  rewrite <- (length_reverse (plugins self)), <- call_order_plugins.
  by rewrite length_fmap.
Qed.

(** With an empty name registered, the names are fewer than the plugins. *)
Lemma nonempty_names_fewer self p :
  p ∈ plugins self → get_taster_name p = EmptyString →
  length (filter (λ name, name ≠ EmptyString)
            (get_taster_name <$> reverse (plugins self)))
  < plugin_count self.
Proof.
  intros Hp Hname. unfold plugin_count.
  rewrite <- (length_reverse (plugins self)),
    <- (length_fmap get_taster_name (reverse (plugins self))).
  apply (length_filter_lt _ _ EmptyString); [|by intros ?].
  rewrite <- Hname. by apply list_elem_of_fmap_2, elem_of_reverse.
Qed.

(** The part of [run_tasters] after the names are settled. *)
Lemma run_tasters_names_unfold self project_info names :
  outcome (run_tasters self project_info (Some names))
  = match outcome (hook_call Call_test_project
                     (λ p, test_project p project_info) self) with
    | inl e => inl e
    | inr all_results =>
        pairs ← zip_strict
                  (filter (λ name, name ≠ EmptyString)
                     (get_taster_name <$> reverse (plugins self)))
                  all_results;
        mret (filter (λ pr, pr.1 ∈ names) pairs).*2
    end.
Proof.
  unfold run_tasters.
  change (mret names : traced (list string)) with (([], inr names) : traced (list string)).
  rewrite traced_bind_inr, get_taster_names_eq, traced_bind_inr.
  unfold outcome. cbn [snd].
  destruct (hook_call _ _ self) as [cs [e|all_results]]; [done|].
  rewrite traced_bind_inr. cbn [snd]. unfold lift.
  destruct (zip_strict _ all_results) as [e|pairs]; [done|].
  by rewrite traced_bind_inr.
Qed.

End DispatchFailures.

(** X14. One registered validator that declares the empty name breaks the
    dispatch for all: [get_applicable_tasters] raises the [ValueError] of the
    strict zip for every context, and [run_tasters] returns no verdicts for
    any project, with or without names. *)
Theorem X14_empty_name_breaks_dispatch
    (self : PluginManager) (p : Plugin) :
  p ∈ plugins self →
  get_taster_name p = EmptyString →
  (∀ context, outcome (get_applicable_tasters self context) = inl ZipLengthMismatch)
  ∧ (∀ project_info taster_names,
       ∃ e, outcome (run_tasters self project_info taster_names) = inl e).
Proof.
  intros Hp Hname.
  pose proof (nonempty_names_fewer self p Hp Hname) as Hfewer.
  assert (∀ context,
            outcome (get_applicable_tasters self context) = inl ZipLengthMismatch)
    as Happ.
  { intros context. unfold get_applicable_tasters.
    rewrite get_taster_names_eq, traced_bind_inr, hook_call_total, traced_bind_inr.
    unfold lift. rewrite zip_strict_inl; [done|].
    rewrite length_fmap, length_reverse. unfold plugin_count in Hfewer. lia. }
  split; [done|]. intros project_info [names|].
  - rewrite run_tasters_names_unfold.
    destruct (outcome (hook_call Call_test_project _ self)) as [e|all_results] eqn:Hcall;
      [by exists e|].
    apply call_impls_length in Hcall. rewrite call_order_length in Hcall.
    exists ZipLengthMismatch. rewrite zip_strict_inl; [done|]. lia.
  - exists ZipLengthMismatch. rewrite run_tasters_default.
    by apply outcome_bind_inl.
Qed.

Lemma X14_witness :
  (∀ context,
     outcome (get_applicable_tasters unnamed_and_good context) = inl ZipLengthMismatch)
  ∧ (∀ project_info taster_names,
       ∃ e, outcome (run_tasters unnamed_and_good project_info taster_names) = inl e).
Proof.
  apply (X14_empty_name_breaks_dispatch unnamed_and_good unnamed_taster).
  - left.
  - reflexivity.
Defined.

(** X15. In a registry whose validators declare non-empty names and whose
    [test_project] calls all return, [run_tasters] with a list of names
    returns exactly the verdicts of the validators whose declared name is in
    the list, in call order and never more than what the validators
    returned; a name that no validator declares is ignored without error;
    and [test_project] is called on every registered validator whatever the
    names. *)
Theorem X15_run_with_names_filters_by_declared_name
    (self : PluginManager) (project_info : ProjectInfo)
    (names : list string) (all_verdicts : list TasterResult) :
  names_nonempty self →
  verdicts_of project_info (plugins self) all_verdicts →
  ∃ verdicts,
    outcome (run_tasters self project_info (Some names)) = inr verdicts
    ∧ verdicts_of project_info
        (filter (λ p, get_taster_name p ∈ names) (reverse (plugins self))) verdicts
    ∧ verdicts `sublist_of` reverse all_verdicts
    ∧ filter is_test_project_call (calls (run_tasters self project_info (Some names)))
      = Call_test_project <$> reverse (seq 0 (plugin_count self)).
Proof.
  intros Hne Hall. apply Forall2_reverse in Hall.
  rewrite (run_tasters_names_eq _ _ (reverse all_verdicts)) by done.
  eexists. split; [reflexivity|]. split; [|split].
  - apply filter_results_by_name; [done|]. by intros p v _.
  - rewrite <- (snd_zip (get_taster_name <$> reverse (plugins self))
                        (reverse all_verdicts)) at 2.
    + apply fmap_sublist, sublist_filter.
    + apply Forall2_length in Hall. rewrite length_fmap. lia.
  - unfold calls. cbn [fst]. rewrite filter_app, filter_test_project_calls.
    rewrite filter_other_calls by (intros i; cbn; tauto). done.
Qed.

Lemma X15_witness :
  ∃ verdicts,
    outcome (run_tasters docker_and_heroku a_project (Some ["heroku"; "missing"]))
      = inr verdicts
    ∧ verdicts_of a_project
        (filter (λ p, get_taster_name p ∈ ["heroku"; "missing"])
                (reverse (plugins docker_and_heroku))) verdicts
    ∧ verdicts `sublist_of`
        reverse [verdict "docker" "image builds" SUCCESS;
                 verdict "heroku" "no Procfile" FAILURE]
    ∧ filter is_test_project_call
        (calls (run_tasters docker_and_heroku a_project (Some ["heroku"; "missing"])))
      = Call_test_project <$> reverse (seq 0 (plugin_count docker_and_heroku)).
Proof.
  apply (X15_run_with_names_filters_by_declared_name docker_and_heroku a_project
           ["heroku"; "missing"]
           [verdict "docker" "image builds" SUCCESS; verdict "heroku" "no Procfile" FAILURE]).
  - repeat constructor; discriminate.
  - repeat constructor.
Defined.

(** X16. In a registry whose validators declare non-empty names,
    [get_applicable_tasters] returns the names of the validators whose
    [can_handle] is true on the context, in call order (the validator
    registered last first), and decides it without calling any
    [test_project]. *)
Theorem X16_applicable_names_without_testing
    (self : PluginManager) (context : TasterContext) :
  names_nonempty self →
  outcome (get_applicable_tasters self context)
    = inr (get_taster_name
             <$> filter (λ p, can_handle p context = true) (reverse (plugins self)))
  ∧ filter is_test_project_call (calls (get_applicable_tasters self context)) = [].
Proof.
  intros Hne. rewrite get_applicable_tasters_eq by done. split; [done|].
  unfold calls. cbn [fst]. rewrite filter_app.
  rewrite !filter_other_calls by (intros i; cbn; tauto). done.
Qed.

Lemma X16_witness :
  outcome (get_applicable_tasters docker_and_heroku (taster_context a_project))
    = inr ["docker"]
  ∧ filter is_test_project_call
      (calls (get_applicable_tasters docker_and_heroku (taster_context a_project))) = [].
Proof.
  apply (X16_applicable_names_without_testing docker_and_heroku (taster_context a_project)).
  repeat constructor; discriminate.
Defined.


(* ===================================================================== *)
(** * Further properties of the generator and the run coordinator          *)
(* ===================================================================== *)

(** X18. Exactly one of the four status checks of a [TasterResult] holds. *)
Theorem X18_exactly_one_status_check (r : TasterResult) :
  length (filter (λ b, b = true)
            [is_success r; is_failure r; is_skipped r; is_error r]) = 1.
Proof. destruct r as [n [] m l d]; reflexivity. Qed.

Section Run.
Context {World : Type}.
Variable cookiecutter :
  string → string → gmap string object → World → (string + string) * World.
Implicit Types (plugin_manager : PluginManager) (generator : ProjectGenerator)
  (st : RunState World) (ctx : gmap string object).

Lemma run_tasters_returns plugin_manager project_info :
  names_nonempty plugin_manager → never_raises plugin_manager →
  ∃ verdicts, outcome (run_tasters plugin_manager project_info None) = inr verdicts.
Proof.
  intros Hne Hnever.
  assert (∃ all_verdicts,
            verdicts_of project_info (reverse (plugins plugin_manager)) all_verdicts)
    as [all_verdicts Hall].
  { apply Forall_exists_Forall2_l, Forall_forall.
    intros p Hp. rewrite elem_of_reverse in Hp. by apply Hnever. }
  rewrite run_tasters_default, get_applicable_tasters_eq, traced_bind_inr by done.
  rewrite (run_tasters_names_eq _ _ all_verdicts) by done.
  by eexists.
Qed.

Lemma generate_failure generator ctx w msg w1 :
  cookiecutter (template_source generator) (output_dir generator) ctx w = (inl msg, w1) →
  generate cookiecutter generator ctx w
  = (mkGenerationResult false None (Some msg) (Some ctx), w1).
Proof. unfold generate. by intros ->. Qed.

Lemma generate_success generator ctx w project_path w1 :
  cookiecutter (template_source generator) (output_dir generator) ctx w
  = (inr project_path, w1) →
  generate cookiecutter generator ctx w
  = (mkGenerationResult true (Some project_path) None (Some ctx), w1).
Proof. unfold generate. by intros ->. Qed.

Lemma generate_with_info_failure generator ctx w msg w1 :
  cookiecutter (template_source generator) (output_dir generator) ctx w = (inl msg, w1) →
  generate_with_info cookiecutter generator ctx w = (None, w1).
Proof.
  intros Hcall. unfold generate_with_info.
  by rewrite (generate_failure _ _ _ msg w1).
Qed.

Lemma generate_with_info_success generator ctx w project_path w1 :
  cookiecutter (template_source generator) (output_dir generator) ctx w
  = (inr project_path, w1) →
  generate_with_info cookiecutter generator ctx w
  = (Some (mkProjectInfo project_path ctx (generator_metadata generator)), w1).
Proof.
  intros Hcall. unfold generate_with_info.
  by rewrite (generate_success _ _ _ project_path w1).
Qed.

(** The three ways through the body of the loop. *)
Lemma execute_context_generation_failed plugin_manager generator st ctx msg w1 :
  cookiecutter (template_source generator) (output_dir generator) ctx (world st)
    = (inl msg, w1) →
  execute_context cookiecutter plugin_manager generator st ctx
  = inr (mkRunState w1
           (results st ++ [(ctx, false, ["Generation failed: " +:+ msg])])
           (current_step st + 1)).
Proof.
  intros Hfirst. unfold execute_context.
  by rewrite (generate_failure _ _ _ msg w1).
Qed.

Lemma execute_context_no_project_info plugin_manager generator st ctx
    first_path w1 msg w2 :
  cookiecutter (template_source generator) (output_dir generator) ctx (world st)
    = (inr first_path, w1) →
  cookiecutter (template_source generator) (output_dir generator) ctx w1
    = (inl msg, w2) →
  execute_context cookiecutter plugin_manager generator st ctx
  = inr (mkRunState w2
           (results st ++ [(ctx, false, ["Failed to create project info"])])
           (current_step st + 2)).
Proof.
  intros Hfirst Hsecond. unfold execute_context.
  rewrite (generate_success _ _ _ first_path w1) by done.
  cbn [success project_path negb]. rewrite bool_decide_eq_false_2 by done.
  cbn [orb]. rewrite (generate_with_info_failure _ _ _ msg w2) by done.
  cbn. do 2 f_equal. lia.
Qed.

Lemma execute_context_tested plugin_manager generator st ctx
    first_path w1 second_path w2 :
  cookiecutter (template_source generator) (output_dir generator) ctx (world st)
    = (inr first_path, w1) →
  cookiecutter (template_source generator) (output_dir generator) ctx w1
    = (inr second_path, w2) →
  execute_context cookiecutter plugin_manager generator st ctx
  = taster_results ←
      outcome (run_tasters plugin_manager
                 (mkProjectInfo second_path ctx (generator_metadata generator)) None);
    mret (mkRunState w2
            (results st ++
               [(ctx, forallb (λ r, bool_decide (status r = SUCCESS)) taster_results,
                 (λ r, taster_name r +:+ ": " +:+ message r) <$> taster_results)])
            (current_step st + 1 + 1)).
Proof.
  intros Hfirst Hsecond. unfold execute_context.
  rewrite (generate_success _ _ _ first_path w1) by done.
  cbn [success project_path negb]. rewrite bool_decide_eq_false_2 by done.
  cbn [orb]. by rewrite (generate_with_info_success _ _ _ second_path w2).
Qed.

(** One context always adds one result for it and one or two steps, when
    the validators are well behaved. *)
Lemma execute_context_returns plugin_manager generator st ctx :
  names_nonempty plugin_manager → never_raises plugin_manager →
  ∃ w ok messages n,
    execute_context cookiecutter plugin_manager generator st ctx
    = inr (mkRunState w (results st ++ [(ctx, ok, messages)]) (current_step st + n))
    ∧ (1 ≤ n ≤ 2)%nat.
Proof.
  intros Hne Hnever.
  destruct (cookiecutter (template_source generator) (output_dir generator) ctx (world st))
    as [[msg|first_path] w1] eqn:Hfirst.
  - rewrite (execute_context_generation_failed _ _ _ _ msg w1) by done.
    eexists _, _, _, 1. split; [done|lia].
  - destruct (cookiecutter (template_source generator) (output_dir generator) ctx w1)
      as [[msg|project_path] w2] eqn:Hsecond.
    + rewrite (execute_context_no_project_info _ _ _ _ first_path w1 msg w2) by done.
      eexists _, _, _, 2. split; [done|lia].
    + rewrite (execute_context_tested _ _ _ _ first_path w1 project_path w2) by done.
      destruct (run_tasters_returns plugin_manager
                  (mkProjectInfo project_path ctx (generator_metadata generator))
                  Hne Hnever) as [verdicts Hrun].
      rewrite Hrun. cbn.
      eexists _, _, _, 2. split; [|lia]. do 2 f_equal. lia.
Qed.
End Run.

(** X19. A failing generation is recorded and does not stop the loop, and
    no validator is consulted: when the templating library raises,
    [execute_context] records the context as failed with "Generation
    failed: ..." and counts one step; when it succeeds and then raises in the
    second call, made by [generate_with_info], the context is recorded as
    failed with "Failed to create project info" and two steps are counted.
    Both hold for every plugin manager. *)
Theorem X19_generation_failure_is_recorded
    (World : Type)
    (cookiecutter : string → string → gmap string object → World → (string + string) * World)
    (plugin_manager : PluginManager) (generator : ProjectGenerator)
    (st : RunState World) (ctx : gmap string object) :
  (∀ msg w1,
     cookiecutter (template_source generator) (output_dir generator) ctx (world st)
       = (inl msg, w1) →
     execute_context cookiecutter plugin_manager generator st ctx
     = inr (mkRunState w1
              (results st ++ [(ctx, false, ["Generation failed: " +:+ msg])])
              (current_step st + 1)))
  ∧ (∀ project_path w1 msg w2,
       cookiecutter (template_source generator) (output_dir generator) ctx (world st)
         = (inr project_path, w1) →
       cookiecutter (template_source generator) (output_dir generator) ctx w1
         = (inl msg, w2) →
       execute_context cookiecutter plugin_manager generator st ctx
       = inr (mkRunState w2
                (results st ++ [(ctx, false, ["Failed to create project info"])])
                (current_step st + 2))).
Proof.
  split.
  - intros msg w1 Hfirst. by apply execute_context_generation_failed.
  - intros project_path w1 msg w2 Hfirst Hsecond.
    by apply (execute_context_no_project_info _ _ _ _ _ project_path w1 msg).
Qed.

Lemma X19_witness :
  execute_context generates_once good_and_raising a_generator (mkRunState 0 [] 0) a_context
  = inr (mkRunState 1 ([] ++ [(a_context, false, ["Failed to create project info"])])
                    (0 + 2)).
Proof.
  destruct (X19_generation_failure_is_recorded nat generates_once good_and_raising
              a_generator (mkRunState 0 [] 0) a_context) as [_ Hsecond].
  apply (Hsecond "/tmp/out/my-project" 1
                 "Error: /tmp/out/my-project directory already exists" 1).
  - reflexivity.
  - reflexivity.
Defined.



(** X21. With validators that declare non-empty names and never raise, the
    run completes whatever the templating library does: the loop of
    [_start_execution] returns, having appended exactly one result per
    context, in the order of the contexts, and having counted between one
    and two steps per context. *)
Theorem X21_run_records_one_result_per_context
    (World : Type)
    (cookiecutter : string → string → gmap string object → World → (string + string) * World)
    (plugin_manager : PluginManager) (generator : ProjectGenerator)
    (st : RunState World) (combinations : list (gmap string object)) :
  names_nonempty plugin_manager →
  never_raises plugin_manager →
  ∃ st' new_results,
    execute_all cookiecutter plugin_manager generator st combinations = inr st'
    ∧ results st' = results st ++ new_results
    ∧ result_context <$> new_results = combinations
    ∧ (current_step st + length combinations ≤ current_step st')%nat
    ∧ (current_step st' ≤ current_step st + 2 * length combinations)%nat.
Proof.
  intros Hne Hnever. revert st.
  induction combinations as [|ctx combinations IH]; intros st.
  - exists st, []. cbn. rewrite app_nil_r. repeat split; try done; lia.
  - destruct (execute_context_returns cookiecutter plugin_manager generator st ctx
                Hne Hnever) as (w & ok & messages & n & Hctx & Hn).
    cbn [execute_all]. rewrite Hctx. cbn.
    destruct (IH (mkRunState w (results st ++ [(ctx, ok, messages)])
                             (current_step st + n)))
      as (st' & new_results & Hall & Hres & Hctxs & Hlo & Hhi).
    cbn in Hres, Hlo, Hhi.
    exists st', ((ctx, ok, messages) :: new_results). split; [done|].
    split; [by rewrite Hres, <- app_assoc|].
    split; [cbn; by rewrite Hctxs|]. cbn [length]. lia.
Qed.

Lemma X21_witness :
  ∃ st' new_results,
    execute_all never_generates docker_and_heroku a_generator (mkRunState 0 [] 0)
                [a_context; a_second_context] = inr st'
    ∧ results st' = [] ++ new_results
    ∧ result_context <$> new_results = [a_context; a_second_context]
    ∧ (0 + length [a_context; a_second_context] ≤ current_step st')%nat
    ∧ (current_step st' ≤ 0 + 2 * length [a_context; a_second_context])%nat.
Proof.
  apply (X21_run_records_one_result_per_context nat never_generates docker_and_heroku
           a_generator (mkRunState 0 [] 0) [a_context; a_second_context]).
  - repeat constructor; discriminate.
  - intros p project_info
      [->|[->|[]%elem_of_nil]%elem_of_cons]%elem_of_cons; by eexists.
Defined.

Section BatchResults.
Context {World : Type}.
Variable cookiecutter :
  string → string → gmap string object → World → (string + string) * World.

(** What [generate] returns is consistent: a success has a path and no
    error, a failure an error and no path; both carry the context. *)
Lemma generate_result_consistent (generator : ProjectGenerator)
    (ctx : gmap string object) (w : World) :
  let result := (generate cookiecutter generator ctx w).1 in
  context result = Some ctx
  ∧ (success result = true ↔ is_Some (project_path result))
  ∧ (success result = false ↔ is_Some (error result)).
Proof.
  unfold generate.
  destruct (cookiecutter _ _ ctx w) as [[msg|generated] w1]; cbn;
    repeat split; try done;
    try (by intros ?%is_Some_None); intros _; by eexists.
Qed.
End BatchResults.

(** X23. [generate_batch] returns one result per context, in the order of
    the contexts, each carrying its context, also when the templating
    library raises on some of them; a result is a success exactly when it has
    a project path, and a failure exactly when it has an error message. *)
Theorem X23_generate_batch_one_result_per_context
    (World : Type)
    (cookiecutter : string → string → gmap string object → World → (string + string) * World)
    (generator : ProjectGenerator) (contexts : list (gmap string object)) (w : World) :
  let results := (generate_batch cookiecutter generator contexts w).1 in
  context <$> results = Some <$> contexts
  ∧ Forall (λ r, (success r = true ↔ is_Some (project_path r))
                 ∧ (success r = false ↔ is_Some (error r))) results.
Proof.
  revert w. induction contexts as [|ctx contexts IH]; intros w.
  - cbn. split; [done|constructor].
  - cbn [generate_batch].
    pose proof (generate_result_consistent cookiecutter generator ctx w) as Hone.
    destruct (generate cookiecutter generator ctx w) as [result w1].
    specialize (IH w1).
    destruct (generate_batch cookiecutter generator contexts w1) as [results w2].
    cbn in *. destruct Hone as (Hctx & Hok & Hfail), IH as [IHctx IHall].
    split; [by rewrite Hctx, IHctx|]. by constructor.
Qed.

(** X22. A registry that holds the example taster only: [run_tasters]
    returns exactly one verdict for every project, named "example"; its
    status is ERROR exactly when the project directory does not exist,
    FAILURE exactly when the directory exists and holds no file, and SUCCESS
    exactly when it exists and holds a file, with or without a README; it
    is never SKIPPED. *)
Theorem X22_example_taster_verdict
    (path_exists : string → bool) (joinpath : string → string → string)
    (rglob_files : string → list string)
    (str_of_context : gmap string object → string) (str_of_int : nat → string)
    (elapsed : N) (project_info : ProjectInfo) :
  let taster := ExampleTaster path_exists joinpath rglob_files
                              str_of_context str_of_int elapsed in
  let v := example_test_project path_exists joinpath rglob_files
                                str_of_context str_of_int elapsed project_info in
  outcome (run_tasters (mkPluginManager [taster]) project_info None)
    = inr [v]
  ∧ taster_name v = "example"
  ∧ (status v = ERROR ↔ path_exists (path project_info) = false)
  ∧ (status v = FAILURE ↔
     path_exists (path project_info) = true ∧ rglob_files (path project_info) = [])
  ∧ (status v = SUCCESS ↔
     path_exists (path project_info) = true ∧ rglob_files (path project_info) ≠ [])
  ∧ status v ≠ SKIPPED.
Proof.
  cbn zeta. split; [reflexivity|].
  unfold example_test_project.
  destruct (path_exists (path project_info)) eqn:Hexists; cbn [negb].
  - destruct (rglob_files (path project_info)) as [|f files] eqn:Hfiles; cbn.
    + repeat split; try done; by intros [_ ?].
    + destruct (path_exists _ || _); cbn; repeat split; try done; by intros [_ ?].
  - cbn. repeat split; try done; by intros [? _].
Qed.


Lemma X11_witness :
  handle_generate db_cache_options groups_all_unchecked = None.
Proof.
  apply (proj2 (X11_generate_ignored_iff_nothing_checked
                  db_cache_options groups_all_unchecked)).
  intros g c [->|[->|[]%elem_of_nil]%elem_of_cons]%elem_of_cons
           [->|[->|[]%elem_of_nil]%elem_of_cons]%elem_of_cons; reflexivity.
Defined.

(* ===================================================================== *)
(** * Verdicts come from the validators                                    *)
(* ===================================================================== *)

Section ReturnedVerdicts.
Implicit Types (self : PluginManager) (project_info : ProjectInfo).

Lemma call_impls_results {R} hook (impl : Plugin → result R) impls rs :
  outcome (call_impls hook impl impls) = inr rs →
  Forall2 (λ ip r, impl ip.2 = inr r) impls rs.
Proof.
  revert rs. induction impls as [|[i p] impls IH]; intros rs.
  - cbn. intros [= <-]. constructor.
  - cbn [call_impls]. destruct (impl p) as [e|r] eqn:Hp; [done|].
    rewrite traced_bind_inr.
    destruct (call_impls hook impl impls) as [cs [e|rs']]; [done|].
    rewrite traced_bind_inr. unfold outcome. cbn. intros [= <-].
    constructor; [done|]. by apply IH.
Qed.

Lemma zip_strict_inr_zip {A B} (xs : list A) (ys : list B) pairs :
  zip_strict xs ys = inr pairs → pairs = zip xs ys.
Proof.
  destruct (decide (length xs = length ys)) as [Hlen|Hlen].
  - rewrite zip_strict_inr by done. by intros [= <-].
  - by rewrite zip_strict_inl.
Qed.

(** A verdict [run_tasters] returns is a verdict that the [test_project] of
    a registered validator returned. *)
Lemma run_tasters_returns_validator_verdicts self project_info taster_names verdicts v :
  outcome (run_tasters self project_info taster_names) = inr verdicts →
  v ∈ verdicts →
  ∃ p, p ∈ plugins self ∧ test_project p project_info = inr v.
Proof.
  assert (∀ names,
            outcome (run_tasters self project_info (Some names)) = inr verdicts →
            v ∈ verdicts →
            ∃ p, p ∈ plugins self ∧ test_project p project_info = inr v) as Hnames.
  { intros names. rewrite run_tasters_names_unfold.
    destruct (outcome (hook_call Call_test_project _ self)) as [e|all_results] eqn:Hcall;
      [done|].
    apply call_impls_results in Hcall.
    destruct (zip_strict _ all_results) as [e|pairs] eqn:Hzip; [done|].
    apply zip_strict_inr_zip in Hzip as ->. cbn. intros [= <-].
    intros ([name v'] & -> & [_ Hin]%list_elem_of_filter)%list_elem_of_fmap.
    apply elem_of_zip_r, list_elem_of_lookup in Hin as [i Hi].
    destruct (Forall2_lookup_r _ _ _ _ _ Hcall Hi) as ([j p] & Hp & Htest).
    exists p. split; [|done].
    apply elem_of_reverse. rewrite <- call_order_plugins.
    apply list_elem_of_fmap. exists (j, p). split; [done|].
    by eapply list_elem_of_lookup_2. }
  destruct taster_names as [names|]; [apply Hnames|].
  rewrite run_tasters_default.
  destruct (outcome (get_applicable_tasters self (taster_context project_info)))
    as [e|names] eqn:Happ.
  - by rewrite (outcome_bind_inl _ _ e).
  - rewrite (outcome_bind_inr _ _ names) by done. apply Hnames.
Qed.
End ReturnedVerdicts.

(** C1 (amended).  If the [test_project] of a registered validator raises,
    [run_tasters] raises: the exception is not caught, no verdict of any
    validator is returned; what is raised is the exception of a validator's
    [test_project] (or the [ValueError] of the strict zip, when that comes
    first).  And when [run_tasters] returns, every verdict it returns is one
    that the [test_project] of a registered validator returned: a verdict of
    status ERROR exists only when a validator itself returns one. *)
Theorem C1_raising_validator_propagates
    (self : PluginManager) (project_info : ProjectInfo)
    (taster_names : option (list string)) :
  (∀ p e,
     p ∈ plugins self →
     test_project p project_info = inl e →
     ∃ e', outcome (run_tasters self project_info taster_names) = inl e'
           ∧ (e' = ZipLengthMismatch
              ∨ ∃ q, q ∈ plugins self ∧ test_project q project_info = inl e'))
  ∧ (∀ verdicts v,
       outcome (run_tasters self project_info taster_names) = inr verdicts →
       v ∈ verdicts →
       ∃ q, q ∈ plugins self ∧ test_project q project_info = inr v).
Proof.
  split; [|intros verdicts v; apply run_tasters_returns_validator_verdicts].
  intros p e Hp He.
  destruct (call_impls_inl Call_test_project (λ p, test_project p project_info)
              (call_order self) p e) as (e' & q & Hq & Hraise & Hout).
  { rewrite call_order_plugins. by apply elem_of_reverse. }
  { done. }
  rewrite call_order_plugins, elem_of_reverse in Hq.
  assert (∀ names, outcome (run_tasters self project_info (Some names)) = inl e')
    as Hnames.
  { intros names. rewrite run_tasters_names_unfold. unfold hook_call. by rewrite Hout. }
  destruct taster_names as [names|].
  - exists e'. split; [done|]. right. by exists q.
  - rewrite run_tasters_default.
    destruct (outcome (get_applicable_tasters self (taster_context project_info)))
      as [e0|names] eqn:Happ.
    + exists e0. split; [by apply outcome_bind_inl|].
      left. by eapply get_applicable_tasters_raises.
    + exists e'. split; [by rewrite (outcome_bind_inr _ _ names)|].
      right. by exists q.
Qed.

Lemma C1_witness :
  ∃ e', outcome (run_tasters good_and_raising a_project (Some ["good"])) = inl e'
        ∧ (e' = ZipLengthMismatch
           ∨ ∃ q, q ∈ plugins good_and_raising ∧ test_project q a_project = inl e').
Proof.
  destruct (C1_raising_validator_propagates good_and_raising a_project (Some ["good"]))
    as [Hraises _].
  apply (Hraises raising_taster (Raised "RuntimeError: boom")).
  - right. left.
  - reflexivity.
Defined.

(* ===================================================================== *)
(** * The inspector, the names and the screen, continued                   *)
(* ===================================================================== *)

Section ExtractedList.
Variable str_of_other : json → string.

Lemma _extract_options_omap (context : dict json) :
  _extract_options str_of_other context = omap (option_of_entry str_of_other) context.
Proof.
  induction context as [|[key value] context IH]; [done|].
  destruct value as [s|[|first others]|literal];
    rewrite ?_extract_options_cons_list; cbn [_extract_options omap list_omap];
    unfold option_of_entry at 1; cbn [snd fst]; by rewrite IH.
Qed.
End ExtractedList.

(** X8. [_extract_options] returns, in the order of the context, exactly one
    option for each entry whose value is a non-empty list and nothing for
    any other entry: the option is named by the key, its choices are the
    [str] of the items and its default the [str] of the first item.  Every
    option returned passes the validation of [TemplateOption], so the
    [except ValueError] branch skips no entry. *)
Theorem X8_extract_options_reads_nonempty_lists
    (str_of_other : json → string) (context : dict json) :
  _extract_options str_of_other context = omap (option_of_entry str_of_other) context
  ∧ ∀ o, o ∈ _extract_options str_of_other context → constructed o.
Proof.
  split; [apply _extract_options_omap|].
  intros o (first & others & _ & Hc & Hd)%elem_of_extract_options.
  unfold constructed. rewrite Hc, Hd, new_TemplateOption_first.
  destruct o. cbn in *. by subst.
Qed.

Lemma X8_witness :
  _extract_options str_of_literal a_cookiecutter_json
  = [mkTemplateOption "db" ["postgres"; "mysql"] "postgres";
     mkTemplateOption "python" ["3.12"; "3.13"] "3.12"]
  ∧ constructed (mkTemplateOption "python" ["3.12"; "3.13"] "3.12").
Proof.
  destruct (X8_extract_options_reads_nonempty_lists str_of_literal a_cookiecutter_json)
    as [Hextracted Hconstructed].
  split.
  - rewrite Hextracted. reflexivity.
  - apply Hconstructed. right. left.
Defined.

(** The names listed and the validators that declare the empty name make up
    the registry. *)
Lemma listed_names_count (ps : list Plugin) :
  length (filter (λ name, name ≠ EmptyString) (get_taster_name <$> reverse ps))
  + length (filter (λ p, get_taster_name p = EmptyString) ps)
  = length ps.
Proof.
  induction ps as [|p ps IH] using rev_ind; [done|].
  rewrite reverse_snoc, fmap_cons, filter_app, !length_app.
  destruct (decide (get_taster_name p = EmptyString)) as [Hname|Hname].
  - rewrite filter_cons_False by (by intros ?).
    rewrite (filter_cons_True _ p) by done. cbn. lia.
  - rewrite filter_cons_True by done.
    rewrite (filter_cons_False _ p) by done. cbn. lia.
Qed.

(** X17. The names [get_taster_names] lists are in the order the hooks are
    called, the validator registered last first: for a registry that holds
    the validators [earlier], in the order of registration, and then
    [newest], the name of [newest] comes first, ahead of the names listed
    for [earlier] alone.  A validator that declares the empty name is left
    out of the list though [plugin_count] counts it: the names listed and
    the validators of empty name together are as many as [plugin_count]
    says. *)
Theorem X17_names_list_newest_first
    (earlier : list Plugin) (newest : Plugin) :
  ∃ names all_names,
    outcome (get_taster_names (mkPluginManager earlier)) = inr names
    ∧ outcome (get_taster_names (mkPluginManager (earlier ++ [newest]))) = inr all_names
    ∧ all_names = (if decide (get_taster_name newest = EmptyString) then names
                   else get_taster_name newest :: names)
    ∧ length all_names
      + length (filter (λ p, get_taster_name p = EmptyString) (earlier ++ [newest]))
      = plugin_count (mkPluginManager (earlier ++ [newest])).
Proof.
  rewrite !get_taster_names_eq. unfold outcome. cbn [snd plugins].
  eexists _, _. split; [reflexivity|]. split; [reflexivity|]. split.
  - rewrite reverse_snoc, fmap_cons.
    destruct (decide (get_taster_name newest = EmptyString)) as [Hname|Hname].
    + by rewrite filter_cons_False by (by intros ?).
    + by rewrite filter_cons_True.
  - apply listed_names_count.
Qed.

Lemma X17_witness :
  outcome (get_taster_names (mkPluginManager ([unnamed_taster; docker_taster] ++ [heroku_taster])))
  = inr ["heroku"; "docker"]
  ∧ plugin_count (mkPluginManager ([unnamed_taster; docker_taster] ++ [heroku_taster])) = 3.
Proof.
  destruct (X17_names_list_newest_first [unnamed_taster; docker_taster] heroku_taster)
    as (names & all_names & Hearlier & Hall & Hnewest & Hcount).
  vm_compute in Hearlier. injection Hearlier as <-.
  rewrite Hall, <- Hcount, Hnewest. split; reflexivity.
Defined.

Section DefaultsChecked.
Implicit Types (options : list TemplateOption) (groups : list OptionGroup).

Lemma dict_set_fresh {V} (d : dict V) k (v : V) :
  k ∉ d.*1 → dict_set d k v = d ++ [(k, v)].
Proof.
  induction d as [|[k0 v0] d IH]; [done|].
  rewrite fmap_cons, not_elem_of_cons. cbn. intros [Hne Hfresh].
  rewrite decide_False by done. by rewrite IH.
Qed.

Lemma checked_labels_none (cbs : list Checkbox) :
  (∀ c, c ∈ cbs → value c ≠ true) → filter (λ c, value c = true) cbs = [].
Proof.
  intros Hall. induction cbs as [|c cbs IH]; [done|].
  rewrite filter_cons_False by (apply Hall; left).
  apply IH. intros c' Hc'. apply Hall. by right.
Qed.

(** With duplicate-free labels, checking exactly the boxes labelled [d]
    selects [d] once. *)
Lemma checked_labels_default (cbs : list Checkbox) (d : string) :
  NoDup (label_plain <$> cbs) → d ∈ label_plain <$> cbs →
  (∀ c, c ∈ cbs → value c = true ↔ label_plain c = d) →
  label_plain <$> filter (λ c, value c = true) cbs = [d].
Proof.
  induction cbs as [|c cbs IH]; [by intros _ ?%elem_of_nil|].
  rewrite fmap_cons. intros [Hc Hnd]%NoDup_cons Hd Hall.
  destruct (decide (label_plain c = d)) as [Heq|Hne].
  - rewrite filter_cons_True by (apply Hall; [left|done]).
    rewrite checked_labels_none; [by rewrite <- Heq|].
    intros c' Hc' Hv. apply Hc. rewrite Heq.
    rewrite <- (proj1 (Hall c' (list_elem_of_further _ _ _ Hc')) Hv).
    by apply list_elem_of_fmap_2.
  - rewrite filter_cons_False.
    + apply IH; [done| |].
      * by apply elem_of_cons in Hd as [Hd|Hd].
      * intros c' Hc'. apply Hall. by right.
    + intros Hv. apply Hne, Hall; [left|done].
Qed.

Lemma _get_selections_defaults groups :
  NoDup ((λ g, name (group_option g)) <$> groups) →
  (∀ g, g ∈ groups → selected_values_of g = [default (group_option g)]) →
  _get_selections groups
  = (λ g, (name (group_option g), [default (group_option g)])) <$> groups.
Proof.
  induction groups as [|g groups IH] using rev_ind; intros Hnd Hall; [done|].
  rewrite fmap_app in Hnd. apply NoDup_app in Hnd as (Hnd & Hfresh & _).
  rewrite fmap_app, _get_selections_snoc.
  rewrite (Hall g) by (apply elem_of_app; right; left).
  rewrite IH; [|done|intros g' Hg'; apply Hall, elem_of_app; by left].
  apply dict_set_fresh. rewrite <- list_fmap_compose.
  intros Hin. apply (Hfresh (name (group_option g))); [done|left].
Qed.

Lemma default_selections_wf options :
  distinct_names options → dict_wf ((λ o, (name o, [default o])) <$> options).
Proof. unfold dict_wf, distinct_names. by rewrite <- list_fmap_compose. Qed.

(** Nothing is left for [use_defaults] to do when every option of the list
    has a non-empty selection. *)
Lemma use_defaults_all_varying options (selections : dict (list string)) :
  (∀ o, o ∈ options → varies selections o) →
  use_defaults options selections = selections.
Proof.
  induction options as [|o options IH] using rev_ind; intros Hall; [done|].
  rewrite use_defaults_snoc, IH
    by (intros o' Ho'; apply Hall, elem_of_app; by left).
  rewrite is_fixed_varying.
  rewrite (proj2 (is_varying_varies selections o)); [done|].
  apply Hall, elem_of_app. right. left.
Qed.

Lemma product_of_singletons (lists : list (list string)) :
  Forall (λ l, length l = 1) lists → product_of_lengths lists = 1.
Proof.
  induction 1 as [|l lists Hl _ IH]; [done|].
  cbn. unfold product_of_lengths in IH. rewrite Hl, IH. done.
Qed.

Lemma _get_selections_only_defaults options groups :
  groups_of options groups → distinct_names options →
  (∀ o, o ∈ options → constructed o ∧ NoDup (choices o)) →
  only_defaults_checked groups →
  _get_selections groups = (λ o, (name o, [default o])) <$> options.
Proof.
  intros [Hgroups Hlabels] Hnd Hall Hchecked.
  rewrite <- Hgroups, <- list_fmap_compose. apply _get_selections_defaults.
  - unfold distinct_names in Hnd. by rewrite <- Hgroups, <- list_fmap_compose in Hnd.
  - intros g Hg. unfold selected_values_of.
    pose proof (proj1 (Forall_forall _ _) Hlabels g Hg) as Hg_labels.
    destruct (Hall (group_option g)) as [Hcons Hchoices].
    { rewrite <- Hgroups. by apply list_elem_of_fmap_2. }
    apply checked_labels_default.
    + by rewrite Hg_labels.
    + rewrite Hg_labels. by apply constructed_default_in_choices.
    + intros c Hc. by apply Hchecked.
Qed.
End DefaultsChecked.

(** X24. On a screen whose groups are those of the options and whose
    checkbox labels are the options' choices, for constructed options with
    pairwise distinct names whose choices hold no duplicate: when in every
    group exactly the default's checkbox is checked, [_get_selections] maps
    each option's name to the list of its default alone, in option order,
    the displayed count is 1, and [handle_generate] dismisses the screen with
    these selections (when there is at least one option). *)
Theorem X24_only_defaults_checked_selects_the_defaults
    (options : list TemplateOption) (groups : list OptionGroup) :
  groups_of options groups →
  distinct_names options →
  (∀ o, o ∈ options → constructed o ∧ NoDup (choices o)) →
  only_defaults_checked groups →
  _get_selections groups = (λ o, (name o, [default o])) <$> options
  ∧ _update_combination_count options groups = 1
  ∧ (options ≠ [] →
     handle_generate options groups = Some ((λ o, (name o, [default o])) <$> options)).
Proof.
  intros Hgroups Hnd Hall Hchecked.
  pose proof (_get_selections_only_defaults options groups Hgroups Hnd Hall Hchecked)
    as Hsel.
  assert (use_defaults options ((λ o, (name o, [default o])) <$> options)
          = (λ o, (name o, [default o])) <$> options) as Hdefaults.
  { apply use_defaults_all_varying. intros o Ho. exists [default o]. split; [|done].
    apply dict_get_elem_of; [by apply default_selections_wf|].
    by apply (list_elem_of_fmap_2 (λ o, (name o, [default o]))). }
  split; [done|]. split.
  - unfold _update_combination_count. rewrite Hsel, Hdefaults, estimate_product.
    apply product_of_singletons, Forall_forall.
    intros values ([k values'] & -> & Hin)%list_elem_of_fmap.
    unfold counted_entries in Hin. apply list_elem_of_filter in Hin as [_ Hin].
    by apply list_elem_of_fmap in Hin as (o & [= -> ->] & _).
  - intros Hne. unfold handle_generate. rewrite Hsel.
    destruct options as [|o options]; [done|]. cbn [fmap list_fmap].
    by rewrite <- Hdefaults at 2.
Qed.

Lemma X24_witness :
  _get_selections groups_defaults_checked = [("db", ["postgres"]); ("cache", ["redis"])]
  ∧ _update_combination_count db_cache_options groups_defaults_checked = 1
  ∧ (db_cache_options ≠ [] →
     handle_generate db_cache_options groups_defaults_checked
     = Some [("db", ["postgres"]); ("cache", ["redis"])]).
Proof.
  apply (X24_only_defaults_checked_selects_the_defaults
           db_cache_options groups_defaults_checked).
  - split; [reflexivity|]. repeat constructor.
  - unfold distinct_names. cbn. repeat constructor; set_solver.
  - intros o [->|[->|[]%elem_of_nil]%elem_of_cons]%elem_of_cons;
      (split; [reflexivity|cbn; repeat constructor; set_solver]).
  - intros g c [->|[->|[]%elem_of_nil]%elem_of_cons]%elem_of_cons
             [->|[->|[]%elem_of_nil]%elem_of_cons]%elem_of_cons; by cbn.
Defined.
